(** * PoW faucet Discord bot: registration, cooldown and claim engine

    A shallow embedding of [pow_faucet_discord_bot.py].  Python values are
    modelled as follows:

    - a [str] is the list of its Unicode code points ([pystr]);
    - an [int] is a [Z] (Python integers are unbounded);
    - a dict loaded from JSON with a known shape is a record of optional
      fields (a field is [None] when the key is absent), the ["users"]
      object is a [gmap] keyed by [str(discord_user_id)];
    - a function that may raise returns an [option] or a sum;
    - the coroutine of a command is cut at its [await] points into phases
      that run without interruption. *)

From Stdlib Require Import ZArith NArith List Lia Bool Ascii String.
From stdpp Require Import gmap strings list fin_maps pretty.

Local Open Scope Z_scope.

(** ** Python strings *)

Abbreviation pystr := (list N).

Definition ord (a : ascii) : N := N_of_ascii a.

(** A literal of the source, as code points. *)
Definition py (s : string) : pystr := map ord (list_ascii_of_string s).

(** [str.isspace] on one code point: the characters removed by
    [str.strip()] called without argument. *)
Definition isspace (c : N) : bool :=
  ((0x09 <=? c) && (c <=? 0x0D) || (0x1C <=? c) && (c <=? 0x1F)
   || (c =? 0x20) || (c =? 0x85) || (c =? 0xA0) || (c =? 0x1680)
   || (0x2000 <=? c) && (c <=? 0x200A) || (c =? 0x2028) || (c =? 0x2029)
   || (c =? 0x202F) || (c =? 0x205F) || (c =? 0x3000))%N.

Fixpoint lstrip (s : pystr) : pystr :=
  match s with
  | [] => []
  | c :: s' => if isspace c then lstrip s' else s
  end.

Fixpoint rstrip (s : pystr) : pystr :=
  match s with
  | [] => []
  | c :: s' =>
      match rstrip s' with
      | [] => if isspace c then [] else [c]
      | r => c :: r
      end
  end.

Definition strip (s : pystr) : pystr := rstrip (lstrip s).

(** [str.lower]; exact on ASCII, which is all it is applied to: both call
    sites run it on a string that [ADDR_RE] has matched. *)
Definition lower_char (c : N) : N :=
  if ((0x41 <=? c) && (c <=? 0x5A))%N then (c + 32)%N else c.

Definition lower (s : pystr) : pystr := map lower_char s.

(** [x in s] for strings: [needle] occurs as a contiguous block. *)
Fixpoint starts_with (needle s : pystr) : bool :=
  match needle, s with
  | [], _ => true
  | _ :: _, [] => false
  | a :: needle', b :: s' => (a =? b)%N && starts_with needle' s'
  end.

Fixpoint contains (needle s : pystr) : bool :=
  starts_with needle s ||
  match s with
  | [] => false
  | _ :: s' => contains needle s'
  end.

(** What [x in s] means: [s] is [needle] between two strings. *)
Definition occurs (needle s : pystr) : Prop :=
  exists pre post, s = pre ++ needle ++ post.

(** [str(n)] for an integer. *)
Definition str_int (n : Z) : string := pretty n.

(** ** Address validator *)

(** The character class [[0-9a-fA-F]]. *)
Definition is_hex (c : N) : bool :=
  ((0x30 <=? c) && (c <=? 0x39) || (0x61 <=? c) && (c <=? 0x66)
   || (0x41 <=? c) && (c <=? 0x46))%N.

(** [[0-9a-fA-F]{n}]: consume exactly [n] characters of the class and
    return what follows them. *)
Fixpoint hex_run (n : nat) (s : pystr) : option pystr :=
  match n with
  | O => Some s
  | S n' =>
      match s with
      | c :: s' => if is_hex c then hex_run n' s' else None
      | [] => None
      end
  end.

(** [$] without [re.MULTILINE]: at the end of the string, or just before
    a newline that is its last character. *)
Definition at_dollar (rest : pystr) : bool :=
  match rest with
  | [] => true
  | [c] => (c =? 0x0A)%N
  | _ => false
  end.

(** [ADDR_RE.match(s)] for [ADDR_RE = re.compile(r"^[0-9a-fA-F]{40}$")],
    as a truth value. *)
Definition ADDR_RE_match (s : pystr) : bool :=
  match hex_run 40 s with
  | Some rest => at_dollar rest
  | None => false
  end.

(** [normalize_addr]; [None] stands for the [ValueError] it raises. *)
Definition normalize_addr (addr : pystr) : option pystr :=
  let addr := strip addr in
  if ADDR_RE_match addr then Some (lower addr) else None.

(** The format as the specification words it: exactly 40 characters, each
    from the hex alphabet. *)
Definition is_hex40 (s : pystr) : bool :=
  (length s =? 40)%nat && forallb is_hex s.

(** The lowercase hex alphabet. *)
Definition is_lower_hex (c : N) : bool :=
  ((0x30 <=? c) && (c <=? 0x39) || (0x61 <=? c) && (c <=? 0x66))%N.

(** ** JSON values and the persisted records *)

(** A value returned by [json.loads] / [json.load].  An object is the list
    of its items. *)
#[warnings="-register-all"]
Inductive json :=
| JNull
| JBool (b : bool)
| JInt (n : Z)
| JStr (s : pystr)
| JArr (l : list json)
| JObj (items : list (pystr * json)).

(** [d.get(k)] on the items of a dict. *)
Fixpoint dict_get (k : pystr) (items : list (pystr * json)) : option json :=
  match items with
  | [] => None
  | (k', v) :: items' => if bool_decide (k' = k) then Some v else dict_get k items'
  end.

(** One user's record, the dict stored under [str(discord_user_id)].  A
    field is [None] when its key is absent; [other_fields] are the items
    under any other key, which the program carries along untouched. *)
Record user_rec := {
  address : option pystr;
  registered_at : option Z;
  last_claim_at : option Z;
  other_fields : list (pystr * json)
}.

(** The dict [{}]. *)
Definition empty_rec : user_rec :=
  {| address := None; registered_at := None; last_claim_at := None;
     other_fields := [] |}.

(** [rec["address"] = addr] *)
Definition set_address (addr : pystr) (rec : user_rec) : user_rec :=
  {| address := Some addr; registered_at := registered_at rec;
     last_claim_at := last_claim_at rec; other_fields := other_fields rec |}.

(** [rec["registered_at"] = t] *)
Definition set_registered_at (t : Z) (rec : user_rec) : user_rec :=
  {| address := address rec; registered_at := Some t;
     last_claim_at := last_claim_at rec; other_fields := other_fields rec |}.

(** [rec["last_claim_at"] = t] *)
Definition set_last_claim_at (t : Z) (rec : user_rec) : user_rec :=
  {| address := address rec; registered_at := registered_at rec;
     last_claim_at := Some t; other_fields := other_fields rec |}.

(** [rec.setdefault("last_claim_at", 0)] *)
Definition setdefault_last_claim_at (rec : user_rec) : user_rec :=
  match last_claim_at rec with
  | Some _ => rec
  | None => set_last_claim_at 0 rec
  end.

(** The document kept in [DATA_FILE]: a dict whose ["users"] key, when
    present, maps [str(discord_user_id)] to the user's record. *)
Record data := { users : option (gmap pystr user_rec) }.

(** What [DATA_FILE] holds: [None] while the file does not exist. *)
Abbreviation store := (option data).

Definition user_key (discord_user_id : Z) : pystr := py (str_int discord_user_id).

Definition load_data (fs : store) : data :=
  match fs with
  | None => {| users := Some ∅ |}
  | Some d => d
  end.

(** [save_data] seen from the engine: afterwards the file holds [d].  The
    file operations it is made of are in [SaveData] below. *)
Definition save_data (d : data) : store := Some d.

Definition get_user (d : data) (discord_user_id : Z) : option user_rec :=
  default ∅ (users d) !! user_key discord_user_id.

Definition set_user (d : data) (discord_user_id : Z) (rec : user_rec) : data :=
  {| users := Some (<[user_key discord_user_id := rec]> (default ∅ (users d))) |}.

(** ** Configuration and process state *)

(** [ALLOWED_CHANNEL_ID] as [channel_allowed] reads it: the empty string,
    a string on which [int] returns [n], or one on which [int] raises. *)
Inductive channel_setting :=
| ChannelUnset
| ChannelId (n : Z)
| ChannelUnparsable.

(** [GUILD_ID] as [setup_hook] reads it: the empty string, a string on
    which [int] returns [n], or one on which [int] raises. *)
Inductive guild_setting :=
| GuildUnset
| GuildId (n : Z)
| GuildUnparsable.

(** The module-level constants, after the environment has been read. *)
Record config := {
  DISCORD_TOKEN : pystr;
  FAUCET_SENDER_SECRET : pystr;
  FAUCET_AMOUNT : Z;
  COOLDOWN_SECONDS : Z;
  DATA_FILE : pystr;
  GUILD_ID : guild_setting;
  ALLOWED_CHANNEL_ID : channel_setting
}.

(** The part of a [discord.Interaction] the commands read. *)
Record interaction := {
  user_id : Z;
  channel_id : option Z
}.

(** The state of [PowFaucetBot]. *)
Record bot_state := { sender_address : option pystr }.

Definition channel_allowed (cfg : config) (i : interaction) : bool :=
  match ALLOWED_CHANNEL_ID cfg with
  | ChannelUnset => true
  | ChannelId n => bool_decide (channel_id i = Some n)
  | ChannelUnparsable => false
  end.

(** Truth value of a string: [bool(s)]. *)
Definition nonempty (s : pystr) : bool :=
  match s with
  | [] => false
  | _ :: _ => true
  end.

(** [bot.sender_address and addr == bot.sender_address] *)
Definition is_sender (bot : bot_state) (addr : pystr) : bool :=
  match sender_address bot with
  | Some s => nonempty s && bool_decide (addr = s)
  | None => false
  end.

(** ** Transfer client *)

(** What the HTTP round trip of an API call does: it raises (connection
    error, timeout; [e] is [str] of the exception), or a reply arrives with
    a status and a body text.  [parsed] is what [json.loads(txt)] does on
    that text: it raises with a message, or returns a value. *)
Inductive http_outcome :=
| HttpRaised (e : pystr)
| HttpReply (status : Z) (txt : pystr) (parsed : pystr + json).

(** [api_get_me]: the message of the exception raised, or the value
    returned. *)
Definition api_get_me (r : http_outcome) : pystr + json :=
  match r with
  | HttpRaised e => inl e
  | HttpReply status txt parsed =>
      if status =? 200 then parsed
      else inl (py "/me failed (" ++ py (str_int status) ++ py "): " ++ txt)
  end.

(** [api_transfer]: the message of the exception raised, or the value
    returned. *)
Definition api_transfer (r : http_outcome) : pystr + json :=
  match r with
  | HttpRaised e => inl e
  | HttpReply status txt parsed =>
      if status =? 200 then parsed
      else inl (py "/transfer failed (" ++ py (str_int status) ++ py "): " ++ txt)
  end.

(** The transfer call fails, that is [api_transfer] raises: the HTTP round
    trip raises, or the status is not 200, or the body is not JSON. *)
Definition transfer_raises (r : http_outcome) : bool :=
  match r with
  | HttpRaised _ => true
  | HttpReply status _ parsed =>
      negb (status =? 200) ||
      match parsed with
      | inl _ => true
      | inr _ => false
      end
  end.

(** A request sent to [POST /transfer]. *)
Record transfer_call := {
  tc_secret : pystr;
  tc_to_address : pystr;
  tc_amount : Z
}.

(** [PowFaucetBot.setup_hook], the resolution of the sender address. *)
Definition setup_hook (cfg : config) (r : http_outcome) : bot_state :=
  if nonempty (FAUCET_SENDER_SECRET cfg) then
    match api_get_me r with
    | inr (JObj me) =>
        match dict_get (py "account_id") me with
        | Some (JStr addr) =>
            if ADDR_RE_match addr then {| sender_address := Some (lower addr) |}
            else {| sender_address := None |}
        | _ => {| sender_address := None |}
        end
    | _ => {| sender_address := None |}
    end
  else {| sender_address := None |}.






(** ** Commands *)

(** How [/register_address] answers. *)
Inductive register_result :=
| RegChannelNotAllowed
| InvalidFormat
| RegSelfAddressRejected
| Registered (addr : pystr).

(** The record written by [register_address]: lines 212-215. *)
Definition register_rec (old : option user_rec) (addr : pystr) (t : Z) : user_rec :=
  setdefault_last_claim_at
    (set_registered_at t (set_address addr (default empty_rec old))).

(** [register_address] from its first line to its reply; [t] is what
    [now_ts()] returns.  The result is the content of [DATA_FILE]
    afterwards and the reply. *)
Definition register_address (cfg : config) (bot : bot_state) (fs : store)
    (i : interaction) (address : pystr) (t : Z) : store * register_result :=
  if negb (channel_allowed cfg i) then (fs, RegChannelNotAllowed)
  else
    match normalize_addr address with
    | None => (fs, InvalidFormat)
    | Some addr =>
        if is_sender bot addr then (fs, RegSelfAddressRejected)
        else
          let data := load_data fs in
          let rec := register_rec (get_user data (user_id i)) addr t in
          (save_data (set_user data (user_id i) rec), Registered addr)
    end.

(** The three ways a failed transfer is reported. *)
Inductive fail_reason :=
| UnknownRecipient
| FaucetExhausted
| Generic (msg : pystr).

(** How [/claim] answers.  [ClaimRaised] is the [AttributeError] of
    [resp.get] when the transfer returned a JSON value that is no object;
    it is raised after the commit. *)
Inductive claim_result :=
| ClaimChannelNotAllowed
| Misconfigured
| NotRegistered
| SelfAddressRejected
| CooldownActive (rem : Z)
| ClaimFailed (reason : fail_reason)
| ClaimOk (to_addr : pystr) (amount : Z) (from_credits to_credits : option json)
| ClaimRaised.

(** The hours and minutes shown for a remaining time. *)
Definition hours_minutes (rem : Z) : Z * Z := (rem / 3600, (rem mod 3600) / 60).

(** [int(rec.get("last_claim_at", 0) or 0)] *)
Definition last_claim_of (rec : user_rec) : Z := default 0 (last_claim_at rec).

(** The cooldown test of [claim], lines 260-263: the remaining time when
    the claim is refused. *)
Definition claim_cooldown (cfg : config) (rec : user_rec) (t : Z) : option Z :=
  let last_claim := last_claim_of rec in
  if negb (last_claim =? 0) && (t <? last_claim + COOLDOWN_SECONDS cfg)
  then Some ((last_claim + COOLDOWN_SECONDS cfg) - t)
  else None.

(** First phase of [claim], lines 230-267, up to the [await] of the
    transfer: an early reply, or the address to pay.  [t] is what
    [now_ts()] returns. *)
Definition claim_check (cfg : config) (bot : bot_state) (fs : store)
    (i : interaction) (t : Z) : claim_result + pystr :=
  if negb (channel_allowed cfg i) then inl ClaimChannelNotAllowed
  else if negb (nonempty (FAUCET_SENDER_SECRET cfg)) then inl Misconfigured
  else
    match get_user (load_data fs) (user_id i) with
    | None => inl NotRegistered
    | Some rec =>
        match address rec with
        | None => inl NotRegistered
        | Some to_addr =>
            if negb (nonempty to_addr) then inl NotRegistered
            else if is_sender bot to_addr then inl SelfAddressRejected
            else
              match claim_cooldown cfg rec t with
              | Some rem => inl (CooldownActive rem)
              | None => inr to_addr
              end
        end
    end.

(** The request [claim] sends. *)
Definition claim_request (cfg : config) (to_addr : pystr) : transfer_call :=
  {| tc_secret := FAUCET_SENDER_SECRET cfg; tc_to_address := to_addr;
     tc_amount := FAUCET_AMOUNT cfg |}.

(** The [except] branch of [claim], lines 274-295. *)
Definition classify (msg : pystr) : fail_reason :=
  if contains (py "unknown recipient address") msg || contains (py "(404)") msg
  then UnknownRecipient
  else if contains (py "insufficient credits") msg || contains (py "(400)") msg
  then FaucetExhausted
  else Generic msg.

(** The commit of [claim], lines 298-304, on the file as it is then. *)
Definition claim_commit (fs : store) (i : interaction) (to_addr : pystr) (t : Z)
    : store :=
  let data2 := load_data fs in
  let rec2 := default empty_rec (get_user data2 (user_id i)) in
  let rec2 := set_last_claim_at t (set_address to_addr rec2) in
  save_data (set_user data2 (user_id i) rec2).

(** Lines 306-313: the reply after the commit. *)
Definition claim_reply (cfg : config) (to_addr : pystr) (resp : json) : claim_result :=
  match resp with
  | JObj items =>
      ClaimOk to_addr (FAUCET_AMOUNT cfg)
        (dict_get (py "from_credits") items) (dict_get (py "to_credits") items)
  | _ => ClaimRaised
  end.

(** Second phase of [claim], lines 270-313, from the return of the
    transfer to the reply.  [fs] is the file as this phase finds it, [t]
    the time taken in the first phase, [r] what the HTTP call did. *)
Definition claim_finish (cfg : config) (fs : store) (i : interaction)
    (to_addr : pystr) (t : Z) (r : http_outcome) : store * claim_result :=
  match api_transfer r with
  | inl msg => (fs, ClaimFailed (classify msg))
  | inr resp => (claim_commit fs i to_addr t, claim_reply cfg to_addr resp)
  end.

(** What one run of [claim] leaves behind. *)
Record claim_outcome := {
  out_store : store;
  out_result : claim_result;
  out_transfers : list transfer_call
}.

(** [claim] when nothing else touches the file while the transfer is in
    flight. *)
Definition claim (cfg : config) (bot : bot_state) (fs : store)
    (i : interaction) (t : Z) (r : http_outcome) : claim_outcome :=
  match claim_check cfg bot fs i t with
  | inl early => {| out_store := fs; out_result := early; out_transfers := [] |}
  | inr to_addr =>
      let '(fs', res) := claim_finish cfg fs i to_addr t r in
      {| out_store := fs'; out_result := res;
         out_transfers := [claim_request cfg to_addr] |}
  end.

(** How [/whoami] reports the cooldown. *)
Inductive cooldown_status :=
| Ready
| Remaining (rem : Z).

Inductive whoami_result :=
| WhoChannelNotAllowed
| WhoNotRegistered
| WhoAmI (addr : pystr) (cd : cooldown_status) (sender_info : option pystr).

(** The cooldown test of [whoami], lines 334-338. *)
Definition whoami_cooldown (cfg : config) (rec : user_rec) (t : Z) : cooldown_status :=
  let last_claim := last_claim_of rec in
  if (last_claim =? 0) || (last_claim + COOLDOWN_SECONDS cfg <=? t)
  then Ready
  else Remaining ((last_claim + COOLDOWN_SECONDS cfg) - t).

Definition whoami (cfg : config) (bot : bot_state) (fs : store)
    (i : interaction) (t : Z) : whoami_result :=
  if negb (channel_allowed cfg i) then WhoChannelNotAllowed
  else
    match get_user (load_data fs) (user_id i) with
    | None => WhoNotRegistered
    | Some rec =>
        match address rec with
        | None => WhoNotRegistered
        | Some addr =>
            if negb (nonempty addr) then WhoNotRegistered
            else
              WhoAmI addr (whoami_cooldown cfg rec t)
                (match sender_address bot with
                 | Some s => if nonempty s then Some s else None
                 | None => None
                 end)
        end
    end.

(** ** Overlapping commands *)

(** The commands are coroutines on one event loop: a command runs without
    interruption between two [await]s.  [register_address] touches the
    file in one such stretch; [claim] in two, separated by the [await] of
    the transfer, during which other commands run.  The file lock is taken
    and released inside a stretch, so it never has to wait. *)
Module Interleave.

Inductive event :=
| EvRegister (i : interaction) (address : pystr) (t : Z)
| EvClaimCheck (i : interaction) (t : Z)
| EvClaimFinish (k : nat) (r : http_outcome).

(** A started claim: its transfer is in flight, or it has replied. *)
Inductive task :=
| InFlight (i : interaction) (to_addr : pystr) (t : Z)
| Replied (res : claim_result).

Record world := {
  w_store : store;
  w_claims : list task;
  w_transfers : list transfer_call;
  w_registered : list register_result
}.

Definition init (fs : store) : world :=
  {| w_store := fs; w_claims := []; w_transfers := []; w_registered := [] |}.

(** [EvClaimCheck] starts a claim, which becomes the next entry of
    [w_claims]; [EvClaimFinish k r] lets the transfer of claim number [k]
    end with [r] and runs that claim to its reply. *)
Definition step (cfg : config) (bot : bot_state) (w : world) (e : event) : world :=
  match e with
  | EvRegister i address t =>
      let '(fs', res) := register_address cfg bot (w_store w) i address t in
      {| w_store := fs'; w_claims := w_claims w; w_transfers := w_transfers w;
         w_registered := w_registered w ++ [res] |}
  | EvClaimCheck i t =>
      match claim_check cfg bot (w_store w) i t with
      | inl early =>
          {| w_store := w_store w; w_claims := w_claims w ++ [Replied early];
             w_transfers := w_transfers w; w_registered := w_registered w |}
      | inr to_addr =>
          {| w_store := w_store w; w_claims := w_claims w ++ [InFlight i to_addr t];
             w_transfers := w_transfers w ++ [claim_request cfg to_addr];
             w_registered := w_registered w |}
      end
  | EvClaimFinish k r =>
      match w_claims w !! k with
      | Some (InFlight i to_addr t) =>
          let '(fs', res) := claim_finish cfg (w_store w) i to_addr t r in
          {| w_store := fs'; w_claims := <[k := Replied res]> (w_claims w);
             w_transfers := w_transfers w; w_registered := w_registered w |}
      | _ => w
      end
  end.

Definition run (cfg : config) (bot : bot_state) (w : world) (es : list event) : world :=
  fold_left (step cfg bot) es w.

(** A claim that ended with the credits sent. *)
Definition paid (k : task) : bool :=
  match k with
  | Replied (ClaimOk _ _ _ _) => true
  | _ => false
  end.

Definition paid_claims (w : world) : nat := length (filter (fun k => paid k = true) (w_claims w)).

(** The transfer of a claim in flight goes to an address accepted by [ok]. *)
Definition inflight_ok (ok : pystr -> bool) (k : task) : Prop :=
  match k with
  | InFlight _ to_addr _ => ok to_addr = true
  | Replied _ => True
  end.

(** A request as [claim] is meant to send it: to a non-empty address that
    is not the sender's own, with the configured secret and amount. *)
Definition request_ok (cfg : config) (bot : bot_state) (c : transfer_call) : Prop :=
  nonempty (tc_to_address c) = true /\
  is_sender bot (tc_to_address c) = false /\
  tc_secret c = FAUCET_SENDER_SECRET cfg /\
  nonempty (tc_secret c) = true /\
  tc_amount c = FAUCET_AMOUNT cfg.

End Interleave.

(** ** The file operations of [save_data] *)

Module SaveData.

(** The files by path, and the file object that is open for writing with
    the text it has been handed and not yet written out. *)
Record disk := {
  files : gmap pystr pystr;
  handle : option (pystr * pystr)
}.

Inductive fs_op :=
| OpenW (path : pystr)
| Write (chunk : pystr)
| Close
| Replace (src dst : pystr).

(** One call; [None] when it raises. *)
Definition fs_step (d : disk) (op : fs_op) : option disk :=
  match op with
  | OpenW path =>
      Some {| files := <[path := []]> (files d); handle := Some (path, []) |}
  | Write chunk =>
      match handle d with
      | Some (path, buf) => Some {| files := files d; handle := Some (path, buf ++ chunk) |}
      | None => None
      end
  | Close =>
      match handle d with
      | Some (path, buf) =>
          Some {| files := alter (fun old => old ++ buf) path (files d); handle := None |}
      | None => Some d
      end
  | Replace src dst =>
      match files d !! src with
      | Some text => Some {| files := <[dst := text]> (delete src (files d)); handle := handle d |}
      | None => None
      end
  end.

(** Run the calls in order; stop at the first that raises. *)
Fixpoint run_ops (d : disk) (ops : list fs_op) : disk :=
  match ops with
  | [] => d
  | op :: ops' =>
      match fs_step d op with
      | Some d' => run_ops d' ops'
      | None => d
      end
  end.

Definition tmp_path (cfg : config) : pystr := DATA_FILE cfg ++ py ".tmp".

(** [save_data], lines 96-99.  [chunks] are the pieces of text that
    [json.dump] hands to [f.write], in order. *)
Definition save_data_ops (cfg : config) (chunks : list pystr) : list fs_op :=
  OpenW (tmp_path cfg) :: map Write chunks ++ [Close; Replace (tmp_path cfg) (DATA_FILE cfg)].

(** The complete snapshot. *)
Definition snapshot (chunks : list pystr) : pystr := concat chunks.

(** A call that can write to the file at [target] whatever file object is
    open. *)
Definition touches (target : pystr) (op : fs_op) : bool :=
  match op with
  | OpenW path => bool_decide (path = target)
  | Write _ => false
  | Close => false
  | Replace _ _ => true
  end.

(** The open file object, if any, is not on [target]. *)
Definition handle_off (target : pystr) (d : disk) : Prop :=
  match handle d with
  | Some (path, _) => path <> target
  | None => True
  end.

(** [save_data] interrupted after [k] calls. *)
Definition save_data_upto (cfg : config) (chunks : list pystr) (k : nat) (d : disk) : disk :=
  run_ops d (take k (save_data_ops cfg chunks)).

(** [save_data] run to its end. *)
Definition save_data_done (cfg : config) (chunks : list pystr) (d : disk) : disk :=
  save_data_upto cfg chunks (length (save_data_ops cfg chunks)) d.

(** [load_data], lines 88-92, on the files.  [parse] is [json.load] on the
    text of the file, [None] when it raises. *)
Definition load_file (cfg : config) (parse : pystr -> option data) (d : disk)
    : option data :=
  match files d !! DATA_FILE cfg with
  | None => Some {| users := Some ∅ |}
  | Some text => parse text
  end.

End SaveData.

(** ** Well-formed ledgers *)

(** A normalized address: 40 characters of the lowercase hex alphabet. *)
Definition addr_ok (a : pystr) : bool := is_hex40 a && forallb is_lower_hex a.

(** Every address stored under a user id is normalized. *)
Definition store_ok (fs : store) : Prop :=
  forall u rec a,
    get_user (load_data fs) u = Some rec -> address rec = Some a -> addr_ok a = true.

(** The test [claim] and [whoami] make first: the user has a record with a
    non-empty address. *)
Definition registered (fs : store) (u : Z) : bool :=
  match get_user (load_data fs) u with
  | Some rec =>
      match address rec with
      | Some a => nonempty a
      | None => false
      end
  | None => false
  end.

(** ** Sample data *)

(** Sample data for the closed examples. *)
Module Sample.

Definition cfg : config :=
  {| DISCORD_TOKEN := py "token"; FAUCET_SENDER_SECRET := py "secret";
     FAUCET_AMOUNT := 5; COOLDOWN_SECONDS := 86400;
     DATA_FILE := py "discord_pow_faucet.json"; GUILD_ID := GuildUnset;
     ALLOWED_CHANNEL_ID := ChannelUnset |}.

(** The same without [FAUCET_SENDER_SECRET]. *)
Definition cfg_no_secret : config :=
  {| DISCORD_TOKEN := py "token"; FAUCET_SENDER_SECRET := [];
     FAUCET_AMOUNT := 5; COOLDOWN_SECONDS := 86400;
     DATA_FILE := py "discord_pow_faucet.json"; GUILD_ID := GuildUnset;
     ALLOWED_CHANNEL_ID := ChannelUnset |}.


Definition addr_a : pystr := py "aaaaaaaaaaaaaaaaaaaaaaaaaaaaaaaaaaaaaaaa".
Definition addr_b : pystr := py "bbbbbbbbbbbbbbbbbbbbbbbbbbbbbbbbbbbbbbbb".
Definition addr_c : pystr := py "cccccccccccccccccccccccccccccccccccccccc".

(** The sender address is [addr_a]. *)
Definition bot : bot_state := {| sender_address := Some addr_a |}.

Definition alice : interaction := {| user_id := 1001; channel_id := Some 7 |}.

Definition rec_of (addr : pystr) (registered last_claim : Z) : user_rec :=
  {| address := Some addr; registered_at := Some registered;
     last_claim_at := Some last_claim; other_fields := [] |}.

(** A file in which [alice] has the record [rec]. *)
Definition store_with (rec : user_rec) : store :=
  save_data (set_user (load_data None) (user_id alice) rec).

(** [GET /me] answering with the account [addr_a]. *)
Definition me_reply : http_outcome :=
  HttpReply 200 [] (inr (JObj [(py "account_id", JStr addr_a)])).

(** A transfer confirmed by the service. *)
Definition transfer_ok : http_outcome :=
  HttpReply 200 []
    (inr (JObj [(py "from_credits", JInt 95); (py "to_credits", JInt 5)])).


(** Replies with status 200 whose body is JSON but not what the service
    documents: an empty array, and an empty object. *)
Definition transfer_array : http_outcome := HttpReply 200 (py "[]") (inr (JArr [])).
Definition transfer_empty : http_outcome := HttpReply 200 (py "{}") (inr (JObj [])).

(** A transfer refused by the service. *)
Definition transfer_404 : http_outcome :=
  HttpReply 404 (py "unknown recipient address") (inl []).

End Sample.

(** An input that is not 40 hex characters and is accepted: 40 mixed-case
    hex characters between a space and a newline. *)
Definition padded_address : pystr := py " 0123456789abcdefABCDEF0123456789abcdefAB
".

(** * Properties *)

(** ** Strings and keys *)

(** Turn a goal or hypothesis about character ranges into arithmetic. *)
Ltac char_arith :=
  repeat match goal with
    | H : _ = true |- _ =>
        rewrite ?orb_true_iff, ?andb_true_iff, ?N.leb_le, ?N.eqb_eq in H
    | H : _ = false |- _ =>
        apply not_true_iff_false in H;
        rewrite ?orb_true_iff, ?andb_true_iff, ?N.leb_le, ?N.eqb_eq in H
    end;
  try match goal with
    | |- _ = false => apply not_true_iff_false; intros ?
    end;
  repeat match goal with
    | H : _ = true |- _ =>
        rewrite ?orb_true_iff, ?andb_true_iff, ?N.leb_le, ?N.eqb_eq in H
    end;
  rewrite ?orb_true_iff, ?andb_true_iff, ?N.leb_le, ?N.eqb_eq;
  try lia.

Lemma ord_inj a b : ord a = ord b -> a = b.
Proof.
  unfold ord. intros H.
  rewrite <- (ascii_N_embedding a), <- (ascii_N_embedding b). now rewrite H.
Qed.

Lemma py_inj s1 s2 : py s1 = py s2 -> s1 = s2.
Proof.
  unfold py. revert s2.
  induction s1 as [|a s1 IH]; intros [|b s2]; simpl; intros H; try discriminate.
  - reflexivity.
  - injection H as Hab Hrest. apply ord_inj in Hab. apply IH in Hrest.
    now subst.
Qed.

(** Distinct users have distinct keys in the ["users"] object. *)
Lemma user_key_inj a b : user_key a = user_key b -> a = b.
Proof.
  unfold user_key, str_int. intros H. apply py_inj in H.
  now apply (inj pretty) in H.
Qed.

Lemma is_hex_not_space c : is_hex c = true -> isspace c = false.
Proof. unfold is_hex, isspace. intros H. char_arith. Qed.

Lemma lstrip_hex s : forallb is_hex s = true -> lstrip s = s.
Proof.
  destruct s as [|c s]; simpl; [reflexivity|].
  intros H. apply andb_true_iff in H as [Hc _].
  now rewrite (is_hex_not_space _ Hc).
Qed.

Lemma rstrip_hex s : forallb is_hex s = true -> rstrip s = s.
Proof.
  induction s as [|c s IH]; simpl; [reflexivity|].
  intros H. apply andb_true_iff in H as [Hc Hs].
  rewrite (IH Hs). destruct s; [|reflexivity].
  now rewrite (is_hex_not_space _ Hc).
Qed.

Lemma strip_hex s : forallb is_hex s = true -> strip s = s.
Proof. intros H. unfold strip. rewrite (lstrip_hex _ H). now apply rstrip_hex. Qed.

(** What [rstrip] returns does not end in white space. *)
Lemma rstrip_last s : forall r c, rstrip s = r ++ [c] -> isspace c = false.
Proof.
  induction s as [|a s IH]; simpl; intros r c H.
  - now destruct r.
  - destruct (rstrip s) as [|x r'] eqn:E.
    + destruct (isspace a) eqn:Ea.
      * now destruct r.
      * destruct r as [|y r]; simpl in H.
        -- now injection H as ->.
        -- injection H as _ H. now destruct r.
    + destruct r as [|y r]; simpl in H; [discriminate|].
      injection H as _ H. now apply (IH r c).
Qed.

Lemma hex_run_split n : forall s rest,
  hex_run n s = Some rest <->
  exists h, s = h ++ rest /\ length h = n /\ forallb is_hex h = true.
Proof.
  induction n as [|n IH]; intros s rest; simpl.
  - split.
    + intros [= ->]. now exists [].
    + intros (h & -> & Hlen & _). now destruct h.
  - destruct s as [|c s].
    + split; [discriminate|]. intros (h & Hs & Hlen & _).
      destruct h; simpl in *; discriminate.
    + destruct (is_hex c) eqn:Hc.
      * rewrite IH. split.
        -- intros (h & -> & Hlen & Hh). exists (c :: h). simpl.
           rewrite Hc, Hh, Hlen. auto.
        -- intros (h & Hs & Hlen & Hh). destruct h as [|c' h]; [discriminate|].
           simpl in *. injection Hs as -> ->. injection Hlen as Hlen.
           apply andb_true_iff in Hh as [_ Hh]. now exists h.
      * split; [discriminate|]. intros (h & Hs & Hlen & Hh).
        destruct h as [|c' h]; [discriminate|]. simpl in *.
        injection Hs as -> _. apply andb_true_iff in Hh as [Hh _]. congruence.
Qed.

(** The regular expression accepts exactly the 40 character hex strings,
    and those followed by one newline. *)
Lemma ADDR_RE_match_iff s :
  ADDR_RE_match s = true <->
  exists h, is_hex40 h = true /\ (s = h \/ s = h ++ [0x0A%N]).
Proof.
  unfold ADDR_RE_match, is_hex40. split.
  - destruct (hex_run 40 s) as [rest|] eqn:E; [|discriminate].
    apply hex_run_split in E as (h & -> & Hlen & Hh). intros Hd.
    exists h. rewrite Hlen, Hh. split; [reflexivity|].
    destruct rest as [|c [|? ?]]; simpl in Hd; try discriminate.
    + left. now rewrite app_nil_r.
    + right. apply N.eqb_eq in Hd. now subst.
  - intros (h & Hh & Hs). apply andb_true_iff in Hh as [Hlen Hh].
    apply Nat.eqb_eq in Hlen.
    destruct Hs as [-> | ->].
    + assert (E : hex_run 40 h = Some []).
      { apply hex_run_split. exists h. now rewrite app_nil_r. }
      now rewrite E.
    + assert (E : hex_run 40 (h ++ [0x0A%N]) = Some [0x0A%N]).
      { apply hex_run_split. now exists h. }
      now rewrite E.
Qed.

(** After [strip] the trailing-newline case of [$] cannot arise: the
    match is the format of the specification. *)
Lemma ADDR_RE_match_strip s : ADDR_RE_match (strip s) = is_hex40 (strip s).
Proof.
  apply eq_true_iff_eq. rewrite ADDR_RE_match_iff. split.
  - intros (h & Hh & [E | E]); [now rewrite E|].
    unfold strip in E. now apply rstrip_last in E.
  - intros H. exists (strip s). auto.
Qed.

Lemma lower_char_idem c : lower_char (lower_char c) = lower_char c.
Proof.
  unfold lower_char.
  destruct ((0x41 <=? c) && (c <=? 0x5A))%N eqn:E; [|now rewrite E].
  assert (F : ((0x41 <=? c + 32) && (c + 32 <=? 0x5A))%N = false) by char_arith.
  now rewrite F.
Qed.

Lemma lower_idem s : lower (lower s) = lower s.
Proof.
  unfold lower. rewrite map_map. apply map_ext. intros c. apply lower_char_idem.
Qed.

Lemma lower_char_hex c : is_hex c = true -> is_lower_hex (lower_char c) = true.
Proof.
  unfold is_hex, is_lower_hex, lower_char. intros H.
  destruct ((0x41 <=? c) && (c <=? 0x5A))%N eqn:E; char_arith.
Qed.

Lemma is_lower_hex_is_hex c : is_lower_hex c = true -> is_hex c = true.
Proof. unfold is_hex, is_lower_hex. intros H. char_arith. Qed.

Lemma lower_hex s : forallb is_hex s = true -> forallb is_lower_hex (lower s) = true.
Proof.
  induction s as [|c s IH]; simpl; [reflexivity|].
  intros H. apply andb_true_iff in H as [Hc Hs].
  now rewrite (lower_char_hex _ Hc), (IH Hs).
Qed.

Lemma forallb_lower_hex_is_hex s :
  forallb is_lower_hex s = true -> forallb is_hex s = true.
Proof.
  induction s as [|c s IH]; simpl; [reflexivity|].
  intros H. apply andb_true_iff in H as [Hc Hs].
  now rewrite (is_lower_hex_is_hex _ Hc), (IH Hs).
Qed.

Lemma lower_hex40 s : is_hex40 s = true -> is_hex40 (lower s) = true.
Proof.
  unfold is_hex40. intros H. apply andb_true_iff in H as [Hlen Hh].
  unfold lower at 1. rewrite length_map, Hlen. simpl.
  now apply forallb_lower_hex_is_hex, lower_hex.
Qed.

Lemma is_hex40_hex s : is_hex40 s = true -> forallb is_hex s = true.
Proof. unfold is_hex40. intros H. now apply andb_true_iff in H as [_ H]. Qed.

(** A normalized address: 40 characters of the lowercase hex alphabet. *)
Lemma normalize_addr_Some x y :
  normalize_addr x = Some y ->
  y = lower (strip x) /\ is_hex40 (strip x) = true /\ is_hex40 y = true.
Proof.
  unfold normalize_addr. rewrite ADDR_RE_match_strip.
  destruct (is_hex40 (strip x)) eqn:E; [|discriminate].
  intros [= <-]. auto using lower_hex40.
Qed.

Lemma is_hex40_nonempty s : is_hex40 s = true -> nonempty s = true.
Proof. unfold is_hex40. now destruct s. Qed.

(** ** Address validator *)

Lemma lstrip_spaces s : forallb isspace s = true -> lstrip s = [].
Proof.
  induction s as [|c s IH]; simpl; [reflexivity|].
  intros H. apply andb_true_iff in H as [Hc Hs]. now rewrite Hc, IH.
Qed.

Lemma normalize_addr_valid x :
  is_hex40 x = true -> normalize_addr x = Some (lower x).
Proof.
  intros H. unfold normalize_addr.
  rewrite ADDR_RE_match_strip, (strip_hex x (is_hex40_hex x H)).
  now rewrite H.
Qed.

(** C6, as stated: every input that is not exactly 40 characters of the
    hex alphabet is rejected.  It fails on [padded_address], which has 42
    characters and is normalized to the 40 between the white space. *)
Lemma normalize_addr_accepts_padded :
  is_hex40 padded_address = false /\
  normalize_addr padded_address = Some (py "0123456789abcdefabcdef0123456789abcdefab").
Proof. split; vm_compute; reflexivity. Qed.

(** C6, amended: [normalize_addr] judges its input with the white space
    at both ends removed.  It fails exactly when that stripped input is not
    40 characters of the hex alphabet, and otherwise returns the stripped
    input in lower case; so a 40 character hex string in any case mix is
    returned in lower case, the empty string and strings of white space
    fail, and a returned address is 40 lowercase hex characters on which
    [normalize_addr] returns the same address again. *)
Theorem normalize_addr_spec (x : pystr) :
  normalize_addr x = (if is_hex40 (strip x) then Some (lower (strip x)) else None) /\
  (is_hex40 x = true -> normalize_addr x = Some (lower x)) /\
  (forallb isspace x = true -> normalize_addr x = None) /\
  (forall y, normalize_addr x = Some y ->
     is_hex40 y = true /\ forallb is_lower_hex y = true /\
     normalize_addr y = Some y).
Proof.
  split; [|split; [|split]].
  - unfold normalize_addr. now rewrite ADDR_RE_match_strip.
  - apply normalize_addr_valid.
  - intros H. unfold normalize_addr, strip. now rewrite (lstrip_spaces x H).
  - intros y Hy. apply normalize_addr_Some in Hy as (-> & Hx & Hy).
    split; [exact Hy|]. split.
    + now apply lower_hex, is_hex40_hex.
    + rewrite (normalize_addr_valid _ Hy). now rewrite lower_idem.
Qed.

Lemma normalize_addr_spec_witness :
  normalize_addr (py "00112233445566778899AABBCCDDEEFFaabbccdd")
    = Some (py "00112233445566778899aabbccddeeffaabbccdd") /\
  normalize_addr (py "  	 ") = None /\
  normalize_addr (py "00112233445566778899aabbccddeeffaabbccdd")
    = Some (py "00112233445566778899aabbccddeeffaabbccdd").
Proof.
  pose proof (normalize_addr_spec (py "00112233445566778899AABBCCDDEEFFaabbccdd"))
    as (_ & Hvalid & _ & Hidem).
  pose proof (normalize_addr_spec (py "  	 ")) as (_ & _ & Hspace & _).
  split; [exact (Hvalid eq_refl)|].
  split; [exact (Hspace eq_refl)|].
  exact (proj2 (proj2 (Hidem _ (Hvalid eq_refl)))).
Defined.

(** ** The ledger *)

Lemma load_save d : load_data (save_data d) = d.
Proof. reflexivity. Qed.

Lemma get_user_set_user d u rec : get_user (set_user d u rec) u = Some rec.
Proof. unfold get_user, set_user. simpl. apply lookup_insert_eq. Qed.

Lemma get_user_set_user_ne d u v rec :
  u <> v -> get_user (set_user d u rec) v = get_user d v.
Proof.
  intros Huv. unfold get_user, set_user. simpl.
  apply lookup_insert_ne. intros E. now apply user_key_inj in E.
Qed.

(** ** Cooldown *)

Lemma claim_cooldown_None cfg rec t :
  claim_cooldown cfg rec t = None <->
  last_claim_of rec = 0 \/ last_claim_of rec + COOLDOWN_SECONDS cfg <= t.
Proof.
  unfold claim_cooldown.
  destruct (last_claim_of rec =? 0) eqn:E0; simpl.
  - apply Z.eqb_eq in E0. tauto.
  - apply Z.eqb_neq in E0.
    destruct (t <? last_claim_of rec + COOLDOWN_SECONDS cfg) eqn:Et.
    + apply Z.ltb_lt in Et. split; [discriminate|]. lia.
    + apply Z.ltb_ge in Et. tauto.
Qed.

Lemma claim_cooldown_Some cfg rec t rem :
  claim_cooldown cfg rec t = Some rem <->
  last_claim_of rec <> 0 /\ t < last_claim_of rec + COOLDOWN_SECONDS cfg /\
  rem = last_claim_of rec + COOLDOWN_SECONDS cfg - t.
Proof.
  unfold claim_cooldown.
  destruct (last_claim_of rec =? 0) eqn:E0; simpl.
  - apply Z.eqb_eq in E0. split; [discriminate|]. tauto.
  - apply Z.eqb_neq in E0.
    destruct (t <? last_claim_of rec + COOLDOWN_SECONDS cfg) eqn:Et.
    + apply Z.ltb_lt in Et. split.
      * intros [= <-]. auto.
      * intros (_ & _ & ->). reflexivity.
    + apply Z.ltb_ge in Et. split; [discriminate|]. lia.
Qed.

(** The first phase of [claim] once its earlier tests are passed. *)
Lemma claim_check_registered cfg bot fs i t rec a :
  channel_allowed cfg i = true ->
  nonempty (FAUCET_SENDER_SECRET cfg) = true ->
  get_user (load_data fs) (user_id i) = Some rec ->
  address rec = Some a ->
  nonempty a = true ->
  is_sender bot a = false ->
  claim_check cfg bot fs i t =
    match claim_cooldown cfg rec t with
    | Some rem => inl (CooldownActive rem)
    | None => inr a
    end.
Proof.
  intros Hch Hsec Hrec Haddr Hne Hsend. unfold claim_check.
  now rewrite Hch, Hsec, Hrec, Haddr, Hne, Hsend.
Qed.

(** The cooldown test of [whoami] and that of [claim], on one record at
    one time. *)
Lemma cooldown_tests_agree (cfg : config) (rec : user_rec) (t : Z) :
  (whoami_cooldown cfg rec t = Ready <-> claim_cooldown cfg rec t = None) /\
  (whoami_cooldown cfg rec t = Ready <->
     last_claim_of rec = 0 \/ t >= last_claim_of rec + COOLDOWN_SECONDS cfg) /\
  (forall rem, whoami_cooldown cfg rec t = Remaining rem <->
     claim_cooldown cfg rec t = Some rem) /\
  (forall rem, whoami_cooldown cfg rec t = Remaining rem ->
     rem = last_claim_of rec + COOLDOWN_SECONDS cfg - t).
Proof.
  assert (Hready : whoami_cooldown cfg rec t = Ready <->
            last_claim_of rec = 0 \/ last_claim_of rec + COOLDOWN_SECONDS cfg <= t).
  { unfold whoami_cooldown.
    destruct (last_claim_of rec =? 0) eqn:E0; simpl.
    - apply Z.eqb_eq in E0. tauto.
    - apply Z.eqb_neq in E0.
      destruct (last_claim_of rec + COOLDOWN_SECONDS cfg <=? t) eqn:Et.
      + apply Z.leb_le in Et. tauto.
      + apply Z.leb_gt in Et. split; [discriminate|]. lia. }
  assert (Hrem : forall rem, whoami_cooldown cfg rec t = Remaining rem <->
            claim_cooldown cfg rec t = Some rem).
  { intros rem. rewrite claim_cooldown_Some. unfold whoami_cooldown.
    destruct (last_claim_of rec =? 0) eqn:E0; simpl.
    - apply Z.eqb_eq in E0. split; [discriminate|]. tauto.
    - apply Z.eqb_neq in E0.
      destruct (last_claim_of rec + COOLDOWN_SECONDS cfg <=? t) eqn:Et.
      + apply Z.leb_le in Et. split; [discriminate|]. lia.
      + apply Z.leb_gt in Et. split.
        * intros [= <-]. auto.
        * intros (_ & _ & ->). reflexivity. }
  split; [|split; [|split]].
  - rewrite Hready. symmetry. apply claim_cooldown_None.
  - rewrite Hready. split; (intros [H | H]; [now left | right; lia]).
  - exact Hrem.
  - intros rem H. apply Hrem, claim_cooldown_Some in H. tauto.
Qed.

(** C10: for the record of the user and at the time [t] of the command,
    [whoami] reports the cooldown as ready exactly when a claim by the
    same user at the same time passes the cooldown test, that is when
    [last_claim_at] is 0 or [t >= last_claim_at + COOLDOWN_SECONDS];
    otherwise [whoami] reports the remaining time [last_claim_at +
    COOLDOWN_SECONDS - t], the one with which the claim is refused. *)
Theorem whoami_agrees_with_claim (cfg : config) (bot : bot_state) (fs : store)
    (i : interaction) (t : Z) (rec : user_rec) (a : pystr) :
  channel_allowed cfg i = true ->
  get_user (load_data fs) (user_id i) = Some rec ->
  address rec = Some a ->
  nonempty a = true ->
  exists cd info,
    whoami cfg bot fs i t = WhoAmI a cd info /\
    (cd = Ready <-> claim_cooldown cfg rec t = None) /\
    (cd = Ready <->
       last_claim_of rec = 0 \/ t >= last_claim_of rec + COOLDOWN_SECONDS cfg) /\
    (forall rem, cd = Remaining rem <-> claim_cooldown cfg rec t = Some rem) /\
    (forall rem, cd = Remaining rem ->
       rem = last_claim_of rec + COOLDOWN_SECONDS cfg - t) /\
    (nonempty (FAUCET_SENDER_SECRET cfg) = true -> is_sender bot a = false ->
       (cd = Ready <-> claim_check cfg bot fs i t = inr a) /\
       (forall rem, cd = Remaining rem <->
          claim_check cfg bot fs i t = inl (CooldownActive rem))).
Proof.
  intros Hch Hrec Haddr Hne.
  destruct (cooldown_tests_agree cfg rec t) as (Hready & Hwhen & Hrem & Hval).
  exists (whoami_cooldown cfg rec t). eexists. split.
  { unfold whoami. rewrite Hch, Hrec, Haddr, Hne. reflexivity. }
  split; [exact Hready|]. split; [exact Hwhen|]. split; [exact Hrem|].
  split; [exact Hval|].
  intros Hsec Hs.
  rewrite (claim_check_registered cfg bot fs i t rec a Hch Hsec Hrec Haddr Hne Hs).
  split.
  - rewrite Hready. destruct (claim_cooldown cfg rec t); split; intros H;
      try reflexivity; discriminate.
  - intros rem. rewrite Hrem. destruct (claim_cooldown cfg rec t) as [rem'|]; split;
      intros H; try discriminate.
    + now injection H as ->.
    + now injection H as ->.
Qed.

Lemma whoami_agrees_with_claim_witness :
  whoami Sample.cfg Sample.bot
    (Sample.store_with (Sample.rec_of Sample.addr_b 10 1000)) Sample.alice 2000
    = WhoAmI Sample.addr_b (Remaining 85400) (Some Sample.addr_a) /\
  claim_check Sample.cfg Sample.bot
    (Sample.store_with (Sample.rec_of Sample.addr_b 10 1000)) Sample.alice 2000
    = inl (CooldownActive 85400).
Proof.
  destruct (whoami_agrees_with_claim Sample.cfg Sample.bot
              (Sample.store_with (Sample.rec_of Sample.addr_b 10 1000))
              Sample.alice 2000 (Sample.rec_of Sample.addr_b 10 1000) Sample.addr_b
              eq_refl (get_user_set_user _ _ _) eq_refl eq_refl)
    as (cd & info & Hwho & _ & _ & Hrem & _ & Hfull).
  destruct (Hfull eq_refl eq_refl) as [_ Hcheck].
  split; [reflexivity|].
  apply Hcheck, Hrem. reflexivity.
Defined.

(** C2: for a record with [last_claim_at = T], [T] not 0, and cooldown
    window [W], a claim at time [T + W - 1] is refused with
    [CooldownActive] and a remaining time of 1, and a claim at time
    [T + W] passes the cooldown test and sends the transfer; with
    [last_claim_at] 0 (or absent) a claim passes the cooldown test at
    every time. *)
Theorem cooldown_boundary (cfg : config) (bot : bot_state) (fs : store)
    (i : interaction) (rec : user_rec) (a : pystr) :
  channel_allowed cfg i = true ->
  nonempty (FAUCET_SENDER_SECRET cfg) = true ->
  get_user (load_data fs) (user_id i) = Some rec ->
  address rec = Some a ->
  nonempty a = true ->
  is_sender bot a = false ->
  (forall T, last_claim_at rec = Some T -> T <> 0 ->
     claim_check cfg bot fs i (T + COOLDOWN_SECONDS cfg - 1) = inl (CooldownActive 1) /\
     (forall r, out_transfers (claim cfg bot fs i (T + COOLDOWN_SECONDS cfg - 1) r) = []) /\
     claim_check cfg bot fs i (T + COOLDOWN_SECONDS cfg) = inr a /\
     (forall r, out_transfers (claim cfg bot fs i (T + COOLDOWN_SECONDS cfg) r)
                = [claim_request cfg a])) /\
  (last_claim_of rec = 0 ->
     forall t, claim_cooldown cfg rec t = None /\ claim_check cfg bot fs i t = inr a).
Proof.
  intros Hch Hsec Hrec Haddr Hne Hsend.
  pose proof (fun t => claim_check_registered cfg bot fs i t rec a
                         Hch Hsec Hrec Haddr Hne Hsend) as Hcheck.
  split.
  - intros T HT HT0.
    assert (Hlast : last_claim_of rec = T) by (unfold last_claim_of; now rewrite HT).
    assert (Hin : claim_cooldown cfg rec (T + COOLDOWN_SECONDS cfg - 1) = Some 1).
    { apply claim_cooldown_Some. rewrite Hlast. lia. }
    assert (Hout : claim_cooldown cfg rec (T + COOLDOWN_SECONDS cfg) = None).
    { apply claim_cooldown_None. rewrite Hlast. lia. }
    assert (C1 : claim_check cfg bot fs i (T + COOLDOWN_SECONDS cfg - 1)
                 = inl (CooldownActive 1)) by (now rewrite Hcheck, Hin).
    assert (C2 : claim_check cfg bot fs i (T + COOLDOWN_SECONDS cfg) = inr a)
      by (now rewrite Hcheck, Hout).
    split; [exact C1|]. split; [|split; [exact C2|]].
    + intros r. unfold claim. now rewrite C1.
    + intros r. unfold claim. rewrite C2.
      now destruct (claim_finish cfg fs i a (T + COOLDOWN_SECONDS cfg) r).
  - intros H0 t.
    assert (Hc : claim_cooldown cfg rec t = None)
      by (apply claim_cooldown_None; now left).
    split; [exact Hc|]. now rewrite Hcheck, Hc.
Qed.

Lemma cooldown_boundary_witness :
  claim_check Sample.cfg Sample.bot
    (Sample.store_with (Sample.rec_of Sample.addr_b 10 1000)) Sample.alice
    (1000 + 86400 - 1) = inl (CooldownActive 1) /\
  claim_check Sample.cfg Sample.bot
    (Sample.store_with (Sample.rec_of Sample.addr_b 10 1000)) Sample.alice
    (1000 + 86400) = inr Sample.addr_b.
Proof.
  pose proof (cooldown_boundary Sample.cfg Sample.bot
                (Sample.store_with (Sample.rec_of Sample.addr_b 10 1000))
                Sample.alice (Sample.rec_of Sample.addr_b 10 1000) Sample.addr_b
                eq_refl eq_refl (get_user_set_user _ _ _) eq_refl eq_refl eq_refl)
    as [Hwindow _].
  assert (H0 : 1000 <> 0) by discriminate.
  destruct (Hwindow 1000 eq_refl H0) as (Hin & _ & Hout & _).
  split; [exact Hin | exact Hout].
Defined.

(** ** Claim *)

Lemma claim_early cfg bot fs i t r early :
  claim_check cfg bot fs i t = inl early ->
  claim cfg bot fs i t r =
    {| out_store := fs; out_result := early; out_transfers := [] |}.
Proof. intros H. unfold claim. now rewrite H. Qed.

Lemma claim_proceeds cfg bot fs i t r a :
  claim_check cfg bot fs i t = inr a ->
  claim cfg bot fs i t r =
    {| out_store := fst (claim_finish cfg fs i a t r);
       out_result := snd (claim_finish cfg fs i a t r);
       out_transfers := [claim_request cfg a] |}.
Proof.
  intros H. unfold claim. rewrite H.
  now destruct (claim_finish cfg fs i a t r).
Qed.

Lemma claim_finish_failed cfg fs i a t r msg :
  api_transfer r = inl msg ->
  claim_finish cfg fs i a t r = (fs, ClaimFailed (classify msg)).
Proof. intros H. unfold claim_finish. now rewrite H. Qed.

Lemma claim_finish_returned cfg fs i a t r resp :
  api_transfer r = inr resp ->
  claim_finish cfg fs i a t r = (claim_commit fs i a t, claim_reply cfg a resp).
Proof. intros H. unfold claim_finish. now rewrite H. Qed.

(** The record the commit leaves for the claiming user. *)
Lemma claim_commit_rec fs i a t :
  get_user (load_data (claim_commit fs i a t)) (user_id i) =
    Some (set_last_claim_at t
            (set_address a (default empty_rec (get_user (load_data fs) (user_id i))))).
Proof. unfold claim_commit. rewrite load_save. apply get_user_set_user. Qed.

Lemma claim_commit_other fs i a t u :
  u <> user_id i ->
  get_user (load_data (claim_commit fs i a t)) u = get_user (load_data fs) u.
Proof.
  intros Hu. unfold claim_commit. rewrite load_save.
  now apply get_user_set_user_ne.
Qed.

(** [claim] by what [api_transfer] does: it raises, or it returns. *)
Lemma claim_by_transfer_result (cfg : config) (bot : bot_state)
    (fs : store) (i : interaction) (t : Z) (r : http_outcome) :
  (forall msg, api_transfer r = inl msg ->
     out_store (claim cfg bot fs i t r) = fs /\
     (forall a, claim_check cfg bot fs i t = inr a ->
        out_result (claim cfg bot fs i t r) = ClaimFailed (classify msg)) /\
     (forall i' t', claim_check cfg bot (out_store (claim cfg bot fs i t r)) i' t'
                    = claim_check cfg bot fs i' t') /\
     (forall fs2 a, claim_finish cfg fs2 i a t r = (fs2, ClaimFailed (classify msg)))) /\
  (out_store (claim cfg bot fs i t r) <> fs ->
     exists a resp, claim_check cfg bot fs i t = inr a /\ api_transfer r = inr resp) /\
  (forall a resp, claim_check cfg bot fs i t = inr a -> api_transfer r = inr resp ->
     exists rec', get_user (load_data (out_store (claim cfg bot fs i t r))) (user_id i)
                  = Some rec' /\ last_claim_at rec' = Some t).
Proof.
  split; [|split].
  - intros msg Hfail.
    assert (Hstore : out_store (claim cfg bot fs i t r) = fs).
    { destruct (claim_check cfg bot fs i t) as [early | a] eqn:E.
      - now rewrite (claim_early _ _ _ _ _ _ _ E).
      - rewrite (claim_proceeds _ _ _ _ _ _ _ E). simpl.
        now rewrite (claim_finish_failed _ _ _ _ _ _ _ Hfail). }
    split; [exact Hstore|]. split; [|split].
    + intros a E. rewrite (claim_proceeds _ _ _ _ _ _ _ E). simpl.
      now rewrite (claim_finish_failed _ _ _ _ _ _ _ Hfail).
    + intros i' t'. now rewrite Hstore.
    + intros fs2 a. now apply claim_finish_failed.
  - intros Hchanged.
    destruct (claim_check cfg bot fs i t) as [early | a] eqn:E.
    + rewrite (claim_early _ _ _ _ _ _ _ E) in Hchanged. now contradict Hchanged.
    + destruct (api_transfer r) as [msg | resp] eqn:Er.
      * rewrite (claim_proceeds _ _ _ _ _ _ _ E) in Hchanged. simpl in Hchanged.
        rewrite (claim_finish_failed _ _ _ _ _ _ _ Er) in Hchanged.
        now contradict Hchanged.
      * now exists a, resp.
  - intros a resp E Er. rewrite (claim_proceeds _ _ _ _ _ _ _ E).
    cbn [out_store]. rewrite (claim_finish_returned _ _ _ _ _ _ _ Er).
    cbn [fst]. rewrite claim_commit_rec. eexists. split; reflexivity.
Qed.

Lemma transfer_raises_true r :
  transfer_raises r = true <-> exists msg, api_transfer r = inl msg.
Proof.
  destruct r as [e | status txt [e | resp]]; simpl.
  - split; [intros _; now exists e | reflexivity].
  - destruct (status =? 200); simpl; (split; [intros _; now eexists | reflexivity]).
  - destruct (status =? 200); simpl.
    + split; [discriminate | intros [msg H]; discriminate].
    + split; [intros _; now eexists | reflexivity].
Qed.

Lemma transfer_raises_false r :
  transfer_raises r = false <-> exists txt resp, r = HttpReply 200 txt (inr resp).
Proof.
  destruct r as [e | status txt [e | resp]]; simpl.
  - split; [discriminate | intros (txt & resp & H); discriminate].
  - rewrite orb_true_r. split; [discriminate | intros (txt' & resp & H); discriminate].
  - rewrite orb_false_r, negb_false_iff, Z.eqb_eq. split.
    + intros ->. now exists txt, resp.
    + now intros (txt' & resp' & [= -> _ _]).
Qed.

(** C1, as stated: whatever way the transfer fails, a malformed response
    included, the claim answers [ClaimFailed] and the ledger is unchanged.
    It fails on replies with status 200 whose body is JSON of the wrong
    shape.  On the body [[]] the claim commits [last_claim_at] and then
    raises; on the body [{}], which confirms nothing, it commits and
    answers that the credits were sent. *)
Lemma malformed_reply_commits :
  let fs := Sample.store_with (Sample.rec_of Sample.addr_b 10 0) in
  let on_array := claim Sample.cfg Sample.bot fs Sample.alice 5000 Sample.transfer_array in
  let on_empty := claim Sample.cfg Sample.bot fs Sample.alice 5000 Sample.transfer_empty in
  out_result on_array = ClaimRaised /\
  get_user (load_data (out_store on_array)) (user_id Sample.alice)
    = Some (Sample.rec_of Sample.addr_b 10 5000) /\
  out_result on_empty = ClaimOk Sample.addr_b 5 None None /\
  get_user (load_data (out_store on_empty)) (user_id Sample.alice)
    = Some (Sample.rec_of Sample.addr_b 10 5000) /\
  out_store on_array <> fs.
Proof.
  repeat split; try (vm_compute; reflexivity).
  intros H. apply (f_equal (fun s => get_user (load_data s) (user_id Sample.alice))) in H.
  vm_compute in H. discriminate.
Qed.

(** C1, amended: when the transfer call raises, which it does when the
    HTTP round trip raises (a timeout, a connection error), when the status
    is not 200 and when the body is not JSON, the claim answers
    [ClaimFailed], one request was sent, and the ledger is exactly what it
    was, so every later claim is judged on the earlier cooldown state; this
    holds as well for the file as the second phase finds it when other
    commands ran in between.  The ledger changes only when the claim reached
    the transfer and the reply had status 200 with a body that is JSON, and
    on every such reply [last_claim_at] of the claiming user becomes the
    time taken at the cooldown test. *)
Theorem failed_transfer_keeps_ledger (cfg : config) (bot : bot_state)
    (fs : store) (i : interaction) (t : Z) (r : http_outcome) :
  (transfer_raises r = true <->
     (exists e, r = HttpRaised e) \/
     (exists status txt parsed, r = HttpReply status txt parsed /\ status <> 200) \/
     (exists txt e, r = HttpReply 200 txt (inl e))) /\
  (transfer_raises r = true ->
     out_store (claim cfg bot fs i t r) = fs /\
     (forall a, claim_check cfg bot fs i t = inr a ->
        exists msg,
          api_transfer r = inl msg /\
          claim cfg bot fs i t r =
            {| out_store := fs; out_result := ClaimFailed (classify msg);
               out_transfers := [claim_request cfg a] |}) /\
     (forall i' t', claim_check cfg bot (out_store (claim cfg bot fs i t r)) i' t'
                    = claim_check cfg bot fs i' t') /\
     (forall fs2 a, exists msg,
        claim_finish cfg fs2 i a t r = (fs2, ClaimFailed (classify msg)))) /\
  (out_store (claim cfg bot fs i t r) <> fs ->
     (exists a, claim_check cfg bot fs i t = inr a) /\
     exists txt resp, r = HttpReply 200 txt (inr resp)) /\
  (forall a txt resp,
     claim_check cfg bot fs i t = inr a -> r = HttpReply 200 txt (inr resp) ->
     exists rec', get_user (load_data (out_store (claim cfg bot fs i t r))) (user_id i)
                  = Some rec' /\ last_claim_at rec' = Some t).
Proof.
  destruct (claim_by_transfer_result cfg bot fs i t r) as (Hfail & Hchanged & Hcommit).
  split; [|split; [|split]].
  - destruct r as [e | status txt [e | resp]]; simpl.
    + split; [intros _; left; now exists e | reflexivity].
    + rewrite orb_true_r. split; [|reflexivity]. intros _.
      destruct (Z.eq_dec status 200) as [-> | Hs].
      * right. right. now exists txt, e.
      * right. left. now exists status, txt, (inl e).
    + rewrite orb_false_r, negb_true_iff, Z.eqb_neq. split.
      * intros Hs. right. left. now exists status, txt, (inr resp).
      * intros [[e H] | [(st & tx & pa & [= -> _ _] & Hs) | (tx & e & H)]];
          [discriminate | exact Hs | discriminate].
  - intros Hr. apply transfer_raises_true in Hr as [msg Hmsg].
    destruct (Hfail msg Hmsg) as (Hstore & Hres & Hlater & Hfin).
    split; [exact Hstore|]. split; [|split; [exact Hlater|]].
    + intros a Ha. exists msg. split; [exact Hmsg|].
      rewrite (claim_proceeds _ _ _ _ _ _ _ Ha).
      now rewrite (claim_finish_failed _ _ _ _ _ _ _ Hmsg).
    + intros fs2 a. exists msg. apply Hfin.
  - intros Hne. destruct (Hchanged Hne) as (a & resp & Ha & Hresp).
    split; [now exists a|]. apply transfer_raises_false.
    destruct (transfer_raises r) eqn:E; [|reflexivity].
    apply transfer_raises_true in E as [msg Hmsg]. congruence.
  - intros a txt resp Ha ->. apply (Hcommit a resp Ha).
    reflexivity.
Qed.

Lemma failed_transfer_keeps_ledger_witness :
  claim Sample.cfg Sample.bot
    (Sample.store_with (Sample.rec_of Sample.addr_b 10 0))
    Sample.alice 5000 Sample.transfer_404
  = {| out_store := Sample.store_with (Sample.rec_of Sample.addr_b 10 0);
       out_result := ClaimFailed UnknownRecipient;
       out_transfers := [claim_request Sample.cfg Sample.addr_b] |}.
Proof.
  pose proof (failed_transfer_keeps_ledger Sample.cfg Sample.bot
                (Sample.store_with (Sample.rec_of Sample.addr_b 10 0))
                Sample.alice 5000 Sample.transfer_404) as (_ & Hfail & _).
  destruct (Hfail eq_refl) as (_ & Hres & _).
  destruct (Hres Sample.addr_b eq_refl) as (msg & Hmsg & Hclaim).
  rewrite Hclaim. injection Hmsg as <-. reflexivity.
Defined.

(** ** Self-address guard *)

Lemma ADDR_RE_match_nonempty s : ADDR_RE_match s = true -> nonempty (lower s) = true.
Proof. now destruct s. Qed.

(** The sender address is known only if the secret is configured, and it
    is never the empty string. *)
Lemma setup_hook_known cfg me op :
  sender_address (setup_hook cfg me) = Some op ->
  nonempty (FAUCET_SENDER_SECRET cfg) = true /\ nonempty op = true.
Proof.
  unfold setup_hook.
  destruct (nonempty (FAUCET_SENDER_SECRET cfg)); [|discriminate].
  destruct (api_get_me me) as [e | [| | | | |items]]; try discriminate.
  destruct (dict_get (py "account_id") items) as [[| | |addr| |]|]; try discriminate.
  destruct (ADDR_RE_match addr) eqn:E; [|discriminate].
  simpl. intros [= <-]. auto using ADDR_RE_match_nonempty.
Qed.

Lemma is_sender_known bot op :
  sender_address bot = Some op -> nonempty op = true -> is_sender bot op = true.
Proof.
  intros H Hne. unfold is_sender. rewrite H, Hne. simpl.
  now apply bool_decide_eq_true.
Qed.

Lemma claim_check_self cfg bot fs i t rec op :
  channel_allowed cfg i = true ->
  nonempty (FAUCET_SENDER_SECRET cfg) = true ->
  sender_address bot = Some op ->
  nonempty op = true ->
  get_user (load_data fs) (user_id i) = Some rec ->
  address rec = Some op ->
  claim_check cfg bot fs i t = inl SelfAddressRejected.
Proof.
  intros Hch Hsec Hbot Hne Hrec Haddr. unfold claim_check.
  now rewrite Hch, Hsec, Hrec, Haddr, Hne, (is_sender_known _ _ Hbot Hne).
Qed.

(** C4: once [setup_hook] has resolved the sender address, registering an
    input whose normalized form equals it is refused with
    [SelfAddressRejected] and leaves the ledger alone; a claim by a user
    whose registered address equals it is refused with
    [SelfAddressRejected], sends no transfer and leaves the ledger alone,
    whatever way the record came to hold that address, in particular when
    it was registered while the sender address was still unknown. *)
Theorem self_address_guard (cfg : config) (me : http_outcome) (fs : store)
    (i : interaction) (op : pystr) (t : Z) :
  sender_address (setup_hook cfg me) = Some op ->
  channel_allowed cfg i = true ->
  (forall raw, normalize_addr raw = Some op ->
     register_address cfg (setup_hook cfg me) fs i raw t
       = (fs, RegSelfAddressRejected)) /\
  (forall rec r,
     get_user (load_data fs) (user_id i) = Some rec -> address rec = Some op ->
     claim cfg (setup_hook cfg me) fs i t r
       = {| out_store := fs; out_result := SelfAddressRejected;
            out_transfers := [] |}) /\
  (forall raw t0 r, normalize_addr raw = Some op ->
     let early := register_address cfg {| sender_address := None |} fs i raw t0 in
     snd early = Registered op /\
     claim cfg (setup_hook cfg me) (fst early) i t r
       = {| out_store := fst early; out_result := SelfAddressRejected;
            out_transfers := [] |}).
Proof.
  intros Hop Hch. destruct (setup_hook_known _ _ _ Hop) as [Hsec Hne].
  split; [|split].
  - intros raw Hraw. unfold register_address.
    now rewrite Hch, Hraw, (is_sender_known _ _ Hop Hne).
  - intros rec r Hrec Haddr. apply claim_early.
    now apply (claim_check_self cfg _ fs i t rec op).
  - intros raw t0 r Hraw. unfold register_address.
    rewrite Hch, Hraw. simpl. split; [reflexivity|].
    apply claim_early.
    eapply (claim_check_self cfg _ _ i t _ op); try eassumption.
    + rewrite load_save. apply get_user_set_user.
    + unfold register_rec, setdefault_last_claim_at.
      now destruct (last_claim_at _).
Qed.

Lemma self_address_guard_witness :
  register_address Sample.cfg (setup_hook Sample.cfg Sample.me_reply) None
    Sample.alice (py " AAAAAAAAAAAAAAAAAAAAAAAAAAAAAAAAAAAAAAAA") 50
    = (None, RegSelfAddressRejected) /\
  out_result (claim Sample.cfg (setup_hook Sample.cfg Sample.me_reply)
                (Sample.store_with (Sample.rec_of Sample.addr_a 10 0))
                Sample.alice 50 Sample.transfer_ok)
    = SelfAddressRejected.
Proof.
  pose proof (self_address_guard Sample.cfg Sample.me_reply None Sample.alice
                Sample.addr_a 50 eq_refl eq_refl) as (Hreg & _ & _).
  pose proof (self_address_guard Sample.cfg Sample.me_reply
                (Sample.store_with (Sample.rec_of Sample.addr_a 10 0))
                Sample.alice Sample.addr_a 50 eq_refl eq_refl) as (_ & Hclaim & _).
  split.
  - exact (Hreg (py " AAAAAAAAAAAAAAAAAAAAAAAAAAAAAAAAAAAAAAAA") eq_refl).
  - rewrite (Hclaim _ Sample.transfer_ok (get_user_set_user _ _ _) eq_refl).
    reflexivity.
Defined.

(** ** Registration *)

Lemma register_address_stored cfg bot fs i raw a t :
  channel_allowed cfg i = true ->
  normalize_addr raw = Some a ->
  is_sender bot a = false ->
  register_address cfg bot fs i raw t =
    (save_data (set_user (load_data fs) (user_id i)
                  (register_rec (get_user (load_data fs) (user_id i)) a t)),
     Registered a).
Proof.
  intros Hch Hraw Hsend. unfold register_address.
  now rewrite Hch, Hraw, Hsend.
Qed.

Lemma register_rec_fields old a t :
  register_rec old a t =
    {| address := Some a; registered_at := Some t;
       last_claim_at := Some (last_claim_of (default empty_rec old));
       other_fields := other_fields (default empty_rec old) |}.
Proof.
  unfold register_rec.
  now destruct (default empty_rec old) as [ad rg [lc|] ot].
Qed.

(** C5: two registrations of one user with valid addresses leave the
    second address stored, [registered_at] at the time of the second
    registration, and [last_claim_at] at the value it had before both (0
    when the key or the record was absent, which reads as never claimed);
    the other fields of the record and the records of other users are kept.
    A first registration creates the record with [last_claim_at] 0. *)
Theorem reregistration_keeps_last_claim (cfg : config) (bot : bot_state)
    (fs : store) (i : interaction) (raw1 raw2 a1 a2 : pystr) (t1 t2 : Z) :
  channel_allowed cfg i = true ->
  normalize_addr raw1 = Some a1 ->
  normalize_addr raw2 = Some a2 ->
  is_sender bot a1 = false ->
  is_sender bot a2 = false ->
  let before := get_user (load_data fs) (user_id i) in
  let first := register_address cfg bot fs i raw1 t1 in
  let second := register_address cfg bot (fst first) i raw2 t2 in
  snd first = Registered a1 /\
  snd second = Registered a2 /\
  get_user (load_data (fst second)) (user_id i) =
    Some {| address := Some a2; registered_at := Some t2;
            last_claim_at := Some (last_claim_of (default empty_rec before));
            other_fields := other_fields (default empty_rec before) |} /\
  (forall v rec, before = Some rec -> last_claim_at rec = Some v ->
     exists rec2, get_user (load_data (fst second)) (user_id i) = Some rec2 /\
                  last_claim_at rec2 = Some v) /\
  (before = None ->
     get_user (load_data (fst first)) (user_id i) =
       Some {| address := Some a1; registered_at := Some t1;
               last_claim_at := Some 0; other_fields := [] |}) /\
  (forall u, u <> user_id i ->
     get_user (load_data (fst second)) u = get_user (load_data fs) u).
Proof.
  intros Hch H1 H2 S1 S2 before first second. subst first second.
  rewrite (register_address_stored cfg bot fs i raw1 a1 t1 Hch H1 S1).
  cbn [fst snd].
  rewrite (register_address_stored cfg bot _ i raw2 a2 t2 Hch H2 S2).
  cbn [fst snd]. rewrite !load_save, !get_user_set_user.
  fold before. rewrite !register_rec_fields. cbn [default].
  unfold last_claim_of at 1. cbn [last_claim_at other_fields default].
  split; [reflexivity|]. split; [reflexivity|]. split; [reflexivity|].
  split; [|split].
  - intros v rec Hb Hv. eexists. split; [reflexivity|]. simpl.
    rewrite Hb. simpl. unfold last_claim_of. now rewrite Hv.
  - intros Hb. now rewrite Hb.
  - intros u Hu. now rewrite !get_user_set_user_ne.
Qed.

Lemma reregistration_keeps_last_claim_witness :
  get_user
    (load_data
       (fst (register_address Sample.cfg Sample.bot
               (fst (register_address Sample.cfg Sample.bot
                       (Sample.store_with (Sample.rec_of Sample.addr_b 10 777))
                       Sample.alice Sample.addr_c 20))
               Sample.alice Sample.addr_b 30)))
    (user_id Sample.alice)
  = Some (Sample.rec_of Sample.addr_b 30 777).
Proof.
  pose proof (reregistration_keeps_last_claim Sample.cfg Sample.bot
                (Sample.store_with (Sample.rec_of Sample.addr_b 10 777))
                Sample.alice Sample.addr_c Sample.addr_b Sample.addr_c Sample.addr_b
                20 30 eq_refl eq_refl eq_refl eq_refl eq_refl)
    as (_ & _ & Hrec & _).
  rewrite Hrec. reflexivity.
Defined.

(** ** Commit *)

(** C7, as stated: the commit changes [last_claim_at] only and keeps the
    address of the record it re-reads.  It fails when the user registers
    another address while the transfer is in flight: the commit re-reads a
    record holding the new address [addr_c] and writes back the address
    [addr_b] that the first phase had read. *)
Lemma commit_reverts_reregistration :
  let w1 := Interleave.run Sample.cfg Sample.bot
              (Interleave.init (Sample.store_with (Sample.rec_of Sample.addr_b 10 0)))
              [Interleave.EvClaimCheck Sample.alice 5000;
               Interleave.EvRegister Sample.alice Sample.addr_c 5001] in
  let w2 := Interleave.step Sample.cfg Sample.bot w1
              (Interleave.EvClaimFinish 0 Sample.transfer_ok) in
  Interleave.w_registered w1 = [Registered Sample.addr_c] /\
  get_user (load_data (Interleave.w_store w1)) (user_id Sample.alice)
    = Some (Sample.rec_of Sample.addr_c 5001 0) /\
  get_user (load_data (Interleave.w_store w2)) (user_id Sample.alice)
    = Some (Sample.rec_of Sample.addr_b 5001 5000) /\
  Sample.addr_b <> Sample.addr_c.
Proof.
  repeat split; try (vm_compute; reflexivity). discriminate.
Qed.

(** C7, amended: on a successful transfer the commit re-reads the current
    record and writes two fields: [last_claim_at], set to the time taken at
    the cooldown test, and [address], set to the address that was read in
    the first phase and paid.  [registered_at] and every other field of the
    re-read record are persisted unchanged, and so are the records of other
    users; when the re-read address is still the one paid, only
    [last_claim_at] changes. *)
Theorem claim_commit_frame (cfg : config) (fs : store) (i : interaction)
    (a : pystr) (t : Z) :
  let reread := default empty_rec (get_user (load_data fs) (user_id i)) in
  (forall r resp, api_transfer r = inr resp ->
     fst (claim_finish cfg fs i a t r) = claim_commit fs i a t) /\
  get_user (load_data (claim_commit fs i a t)) (user_id i) =
    Some {| address := Some a; registered_at := registered_at reread;
            last_claim_at := Some t; other_fields := other_fields reread |} /\
  (address reread = Some a ->
     get_user (load_data (claim_commit fs i a t)) (user_id i)
       = Some (set_last_claim_at t reread)) /\
  (forall u, u <> user_id i ->
     get_user (load_data (claim_commit fs i a t)) u = get_user (load_data fs) u).
Proof.
  intros reread. split; [|split; [|split]].
  - intros r resp Hr. now rewrite (claim_finish_returned _ _ _ _ _ _ _ Hr).
  - now rewrite claim_commit_rec.
  - intros Ha. rewrite claim_commit_rec. fold reread.
    unfold set_last_claim_at, set_address. simpl. now rewrite Ha.
  - intros u Hu. now apply claim_commit_other.
Qed.

Lemma claim_commit_frame_witness :
  get_user
    (load_data (claim_commit (Sample.store_with (Sample.rec_of Sample.addr_b 10 0))
                  Sample.alice Sample.addr_b 5000))
    (user_id Sample.alice)
  = Some (Sample.rec_of Sample.addr_b 10 5000).
Proof.
  pose proof (claim_commit_frame Sample.cfg
                (Sample.store_with (Sample.rec_of Sample.addr_b 10 0))
                Sample.alice Sample.addr_b 5000) as (_ & _ & Hsame & _).
  rewrite Hsame; [reflexivity|].
  unfold Sample.store_with. rewrite load_save, get_user_set_user. reflexivity.
Defined.

(** ** Start-up *)






(** ** Overlapping claims *)

(** The claim of one user, alone, is its two phases in a row. *)
Lemma claim_is_check_then_finish cfg bot fs i t r :
  let w := Interleave.run cfg bot (Interleave.init fs)
             [Interleave.EvClaimCheck i t; Interleave.EvClaimFinish 0 r] in
  Interleave.w_store w = out_store (claim cfg bot fs i t r) /\
  Interleave.w_claims w = [Interleave.Replied (out_result (claim cfg bot fs i t r))] /\
  Interleave.w_transfers w = out_transfers (claim cfg bot fs i t r).
Proof.
  unfold Interleave.run, claim. simpl.
  destruct (claim_check cfg bot fs i t) as [early | a]; simpl; [auto|].
  destruct (claim_finish cfg fs i a t r). simpl. auto.
Qed.

Lemma claim_check_proceeds_inv cfg bot fs i t a :
  claim_check cfg bot fs i t = inr a ->
  channel_allowed cfg i = true /\
  nonempty (FAUCET_SENDER_SECRET cfg) = true /\
  nonempty a = true /\ is_sender bot a = false /\
  exists rec, get_user (load_data fs) (user_id i) = Some rec /\
              address rec = Some a /\ claim_cooldown cfg rec t = None.
Proof.
  unfold claim_check.
  destruct (channel_allowed cfg i); [|discriminate].
  destruct (nonempty (FAUCET_SENDER_SECRET cfg)); [|discriminate]. simpl.
  destruct (get_user (load_data fs) (user_id i)) as [rec|]; [|discriminate].
  destruct (address rec) as [to_addr|] eqn:Ea; [|discriminate].
  destruct (nonempty to_addr) eqn:Hne; [|discriminate]. simpl.
  destruct (is_sender bot to_addr) eqn:Hs; [discriminate|].
  destruct (claim_cooldown cfg rec t) eqn:Hc; [discriminate|].
  intros [= <-]. repeat split; try assumption. now exists rec.
Qed.

(** Claims that do not overlap are serialized by the ledger: after a
    commit at [t1], a claim of the same user inside the window is refused. *)
Lemma claim_after_commit_refused cfg bot fs i t1 t2 a :
  claim_check cfg bot fs i t1 = inr a ->
  t1 <> 0 ->
  t2 < t1 + COOLDOWN_SECONDS cfg ->
  claim_check cfg bot (claim_commit fs i a t1) i t2
    = inl (CooldownActive (t1 + COOLDOWN_SECONDS cfg - t2)).
Proof.
  intros Hcheck Ht1 Ht2.
  apply claim_check_proceeds_inv in Hcheck as (Hch & Hsec & Hne & Hs & _).
  rewrite (claim_check_registered cfg bot _ i t2 _ a Hch Hsec
             (claim_commit_rec fs i a t1) eq_refl Hne Hs).
  assert (Hc : claim_cooldown cfg
                 (set_last_claim_at t1
                    (set_address a (default empty_rec (get_user (load_data fs) (user_id i)))))
                 t2 = Some (t1 + COOLDOWN_SECONDS cfg - t2)).
  { apply claim_cooldown_Some. unfold last_claim_of. simpl. auto. }
  now rewrite Hc.
Qed.

(** Claims that overlap are not: whenever two claims of one user both run
    their first phase before either transfer returns, and both transfers
    are confirmed, both are paid. *)
Lemma overlapping_claims_paid_twice cfg bot fs i t1 t2 a r1 r2 items1 items2 :
  claim_check cfg bot fs i t1 = inr a ->
  claim_check cfg bot fs i t2 = inr a ->
  api_transfer r1 = inr (JObj items1) ->
  api_transfer r2 = inr (JObj items2) ->
  let w := Interleave.run cfg bot (Interleave.init fs)
             [Interleave.EvClaimCheck i t1; Interleave.EvClaimCheck i t2;
              Interleave.EvClaimFinish 0 r1; Interleave.EvClaimFinish 1 r2] in
  Interleave.w_transfers w = [claim_request cfg a; claim_request cfg a] /\
  Interleave.paid_claims w = 2%nat.
Proof.
  intros H1 H2 Hr1 Hr2. unfold Interleave.run. simpl.
  rewrite H1. simpl. rewrite H2. simpl.
  rewrite (claim_finish_returned _ _ _ _ _ _ _ Hr1). simpl.
  rewrite (claim_finish_returned _ _ _ _ _ _ _ Hr2). simpl.
  split; reflexivity.
Qed.

(** C3, on the code: two claims of one user whose first phases both run
    before either commits both pass the cooldown test, both send a
    transfer, and both end with the credits sent. *)
Lemma overlapping_claims_both_paid :
  let w := Interleave.run Sample.cfg Sample.bot
             (Interleave.init (Sample.store_with (Sample.rec_of Sample.addr_b 10 0)))
             [Interleave.EvClaimCheck Sample.alice 5000;
              Interleave.EvClaimCheck Sample.alice 5001;
              Interleave.EvClaimFinish 0 Sample.transfer_ok;
              Interleave.EvClaimFinish 1 Sample.transfer_ok] in
  Interleave.w_claims w =
    [Interleave.Replied (ClaimOk Sample.addr_b 5 (Some (JInt 95)) (Some (JInt 5)));
     Interleave.Replied (ClaimOk Sample.addr_b 5 (Some (JInt 95)) (Some (JInt 5)))] /\
  Interleave.w_transfers w =
    [claim_request Sample.cfg Sample.addr_b; claim_request Sample.cfg Sample.addr_b] /\
  Interleave.paid_claims w = 2%nat.
Proof. repeat split. Qed.

(** ** Saving *)

Section SaveDataFacts.
Import SaveData.

Lemma tmp_path_ne cfg : tmp_path cfg <> DATA_FILE cfg.
Proof.
  unfold tmp_path. intros E. apply (f_equal (@length N)) in E.
  rewrite length_app in E. simpl in E. lia.
Qed.

(** A call that does not touch [target] leaves that file as it is. *)
Lemma fs_step_quiet target d op d' :
  touches target op = false ->
  handle_off target d ->
  fs_step d op = Some d' ->
  files d' !! target = files d !! target /\ handle_off target d'.
Proof.
  unfold handle_off. intros Hop Hd Hstep.
  destruct op as [path | chunk | | src dst]; simpl in *.
  - injection Hstep as <-. simpl. apply bool_decide_eq_false in Hop.
    split; [now apply lookup_insert_ne | exact Hop].
  - destruct (handle d) as [[path buf]|]; [|discriminate].
    injection Hstep as <-. simpl. auto.
  - destruct (handle d) as [[path buf]|] eqn:E.
    + injection Hstep as <-. simpl. split; [now apply lookup_alter_ne | exact I].
    + injection Hstep as <-. now rewrite E.
  - discriminate.
Qed.

Lemma run_ops_quiet target ops : forall d,
  forallb (fun op => negb (touches target op)) ops = true ->
  handle_off target d ->
  files (run_ops d ops) !! target = files d !! target.
Proof.
  induction ops as [|op ops IH]; intros d Hops Hd; simpl; [reflexivity|].
  simpl in Hops. apply andb_true_iff in Hops as [Hop Hops].
  apply negb_true_iff in Hop.
  destruct (fs_step d op) as [d'|] eqn:E; [|reflexivity].
  destruct (fs_step_quiet target d op d' Hop Hd E) as [Hfiles Hd'].
  now rewrite (IH d' Hops Hd').
Qed.

(** The writes only fill the buffer of the file object. *)
Lemma run_ops_writes chunks : forall f path buf rest,
  run_ops {| files := f; handle := Some (path, buf) |} (map Write chunks ++ rest) =
  run_ops {| files := f; handle := Some (path, buf ++ concat chunks) |} rest.
Proof.
  induction chunks as [|c chunks IH]; intros f path buf rest; simpl.
  - now rewrite app_nil_r.
  - now rewrite IH, app_assoc.
Qed.

Lemma save_data_ops_length cfg chunks :
  length (save_data_ops cfg chunks) = (length chunks + 3)%nat.
Proof.
  unfold save_data_ops. simpl. rewrite length_app, length_map. simpl. lia.
Qed.

(** Before its last call, [save_data] has not touched [DATA_FILE]. *)
Lemma save_data_upto_early cfg chunks k d :
  (k < length (save_data_ops cfg chunks))%nat ->
  files (save_data_upto cfg chunks k d) !! DATA_FILE cfg = files d !! DATA_FILE cfg.
Proof.
  rewrite save_data_ops_length. intros Hk.
  unfold save_data_upto, save_data_ops.
  destruct k as [|k]; [reflexivity|]. simpl.
  replace (map Write chunks ++ [Close; Replace (tmp_path cfg) (DATA_FILE cfg)])
    with ((map Write chunks ++ [Close]) ++ [Replace (tmp_path cfg) (DATA_FILE cfg)])
    by now rewrite <- app_assoc.
  rewrite take_app_le by (rewrite length_app, length_map; simpl; lia).
  rewrite run_ops_quiet.
  - simpl. apply lookup_insert_ne, tmp_path_ne.
  - apply forallb_forall. intros op Hop.
    apply list_elem_of_In, elem_of_take in Hop as (j & Hop & _).
    apply list_elem_of_lookup_2, elem_of_app in Hop as [Hop | Hop].
    + apply list_elem_of_fmap in Hop as (c & -> & _). reflexivity.
    + apply list_elem_of_singleton in Hop as ->. reflexivity.
  - unfold handle_off. simpl. apply tmp_path_ne.
Qed.

(** The state before the last call and after it. *)
Lemma save_data_before_replace cfg chunks d :
  save_data_upto cfg chunks (length chunks + 2) d =
    {| files := <[tmp_path cfg := snapshot chunks]> (files d); handle := None |}.
Proof.
  unfold save_data_upto, save_data_ops. simpl.
  replace (map Write chunks ++ [Close; Replace (tmp_path cfg) (DATA_FILE cfg)])
    with ((map Write chunks ++ [Close]) ++ [Replace (tmp_path cfg) (DATA_FILE cfg)])
    by now rewrite <- app_assoc.
  replace (length chunks + 2)%nat with (S (length (map Write chunks ++ [Close])))
    by (rewrite length_app, length_map; simpl; lia).
  simpl. rewrite take_app_length, run_ops_writes. simpl. f_equal.
  apply map_eq. intros p. destruct (decide (p = tmp_path cfg)) as [-> | Hp].
  - now rewrite lookup_alter_eq, !lookup_insert_eq.
  - now rewrite lookup_alter_ne, !lookup_insert_ne.
Qed.

Lemma save_data_complete cfg chunks k d :
  (length (save_data_ops cfg chunks) <= k)%nat ->
  save_data_upto cfg chunks k d =
    {| files := <[DATA_FILE cfg := snapshot chunks]> (delete (tmp_path cfg) (files d));
       handle := None |}.
Proof.
  intros Hk. unfold save_data_upto. rewrite take_ge by exact Hk.
  unfold save_data_ops. simpl. rewrite run_ops_writes. simpl.
  rewrite lookup_alter_eq, lookup_insert_eq. simpl. f_equal. f_equal.
  apply map_eq. intros p. destruct (decide (p = tmp_path cfg)) as [-> | Hp].
  - now rewrite !lookup_delete_eq.
  - now rewrite !lookup_delete_ne, lookup_alter_ne, lookup_insert_ne.
Qed.

(** C8: [save_data] writes the whole snapshot to the temporary file,
    closes it, which writes out what was buffered, and only then replaces
    [DATA_FILE] in one call.  Interrupted after any number [k] of its file
    calls, it leaves [DATA_FILE] with exactly its old content (before the
    last call) or exactly the complete new snapshot (after it), never with a
    part of one; when the last call runs, the temporary file holds the
    complete snapshot and no file object is open. *)
Theorem save_data_all_or_nothing (cfg : config) (chunks : list pystr)
    (k : nat) (d : disk) :
  let n := length (save_data_ops cfg chunks) in
  let d' := save_data_upto cfg chunks k d in
  ((k < n)%nat -> files d' !! DATA_FILE cfg = files d !! DATA_FILE cfg) /\
  ((n <= k)%nat -> files d' !! DATA_FILE cfg = Some (snapshot chunks)) /\
  (files d' !! DATA_FILE cfg = files d !! DATA_FILE cfg \/
   files d' !! DATA_FILE cfg = Some (snapshot chunks)) /\
  last (save_data_ops cfg chunks) = Some (Replace (tmp_path cfg) (DATA_FILE cfg)) /\
  files (save_data_upto cfg chunks (n - 1) d) !! tmp_path cfg = Some (snapshot chunks) /\
  handle (save_data_upto cfg chunks (n - 1) d) = None.
Proof.
  intros n d'. subst n d'.
  assert (Hdone : (length (save_data_ops cfg chunks) <= k)%nat ->
            files (save_data_upto cfg chunks k d) !! DATA_FILE cfg
            = Some (snapshot chunks)).
  { intros Hk. rewrite (save_data_complete cfg chunks k d Hk). simpl.
    apply lookup_insert_eq. }
  split; [apply save_data_upto_early|]. split; [exact Hdone|]. split.
  - destruct (le_lt_dec (length (save_data_ops cfg chunks)) k) as [Hk | Hk].
    + right. now apply Hdone.
    + left. now apply save_data_upto_early.
  - split.
    + unfold save_data_ops.
      replace (OpenW (tmp_path cfg)
                 :: map Write chunks ++ [Close; Replace (tmp_path cfg) (DATA_FILE cfg)])
        with ((OpenW (tmp_path cfg) :: map Write chunks ++ [Close])
                ++ [Replace (tmp_path cfg) (DATA_FILE cfg)])
        by (simpl; now rewrite <- app_assoc).
      apply last_snoc.
    + rewrite save_data_ops_length.
      replace (length chunks + 3 - 1)%nat with (length chunks + 2)%nat by lia.
      rewrite save_data_before_replace. simpl.
      split; [apply lookup_insert_eq | reflexivity].
Qed.

End SaveDataFacts.

Lemma save_data_all_or_nothing_witness :
  SaveData.files
    (SaveData.save_data_upto Sample.cfg [py "{"; py "}"] 3
       {| SaveData.files := {[ DATA_FILE Sample.cfg := py "old" ]};
          SaveData.handle := None |})
    !! DATA_FILE Sample.cfg = Some (py "old") /\
  SaveData.files
    (SaveData.save_data_upto Sample.cfg [py "{"; py "}"] 5
       {| SaveData.files := {[ DATA_FILE Sample.cfg := py "old" ]};
          SaveData.handle := None |})
    !! DATA_FILE Sample.cfg = Some (py "{}").
Proof.
  pose proof (save_data_all_or_nothing Sample.cfg [py "{"; py "}"] 3
                {| SaveData.files := {[ DATA_FILE Sample.cfg := py "old" ]};
                   SaveData.handle := None |}) as Hearly.
  pose proof (save_data_all_or_nothing Sample.cfg [py "{"; py "}"] 5
                {| SaveData.files := {[ DATA_FILE Sample.cfg := py "old" ]};
                   SaveData.handle := None |}) as Hdone.
  cbv zeta in Hearly, Hdone.
  destruct Hearly as (Hearly & _). destruct Hdone as (_ & Hdone & _).
  split.
  - rewrite Hearly; [apply lookup_singleton_eq|]. simpl. lia.
  - apply Hdone. simpl. lia.
Defined.

(** * Further properties of the code *)

(** ** White space around an address *)

Lemma rstrip_spaces s : forallb isspace s = true -> rstrip s = [].
Proof.
  induction s as [|c s IH]; simpl; [reflexivity|].
  intros H. apply andb_true_iff in H as [Hc Hs]. now rewrite (IH Hs), Hc.
Qed.

Lemma lstrip_app_spaces l s : forallb isspace l = true -> lstrip (l ++ s) = lstrip s.
Proof.
  induction l as [|c l IH]; simpl; [reflexivity|].
  intros H. apply andb_true_iff in H as [Hc Hl]. now rewrite Hc, IH.
Qed.

Lemma rstrip_app_spaces s r : forallb isspace r = true -> rstrip (s ++ r) = rstrip s.
Proof.
  intros Hr. induction s as [|c s IH]; simpl.
  - now apply rstrip_spaces.
  - now rewrite IH.
Qed.

Lemma strip_app_spaces x r : forallb isspace r = true -> strip (x ++ r) = strip x.
Proof.
  intros Hr. unfold strip. induction x as [|c x IH]; simpl.
  - now rewrite (lstrip_spaces r Hr).
  - destruct (isspace c); [exact IH|].
    change (c :: x ++ r) with ((c :: x) ++ r). now apply rstrip_app_spaces.
Qed.

Lemma strip_padding l x r :
  forallb isspace l = true -> forallb isspace r = true ->
  strip (l ++ x ++ r) = strip x.
Proof.
  intros Hl Hr. unfold strip at 1. rewrite (lstrip_app_spaces l _ Hl).
  now apply strip_app_spaces.
Qed.

(** X1: white space before and after the input does not count:
    [normalize_addr] gives the same answer, address or failure, on an
    input and on that input with any white space added at both ends. *)
Theorem normalize_addr_padding (l x r : pystr) :
  forallb isspace l = true ->
  forallb isspace r = true ->
  normalize_addr (l ++ x ++ r) = normalize_addr x.
Proof.
  intros Hl Hr. unfold normalize_addr. now rewrite (strip_padding l x r Hl Hr).
Qed.

Lemma normalize_addr_padding_witness :
  normalize_addr (py " 	" ++ py "00112233445566778899AABBCCDDEEFFaabbccdd" ++ py "
 ")
  = Some (py "00112233445566778899aabbccddeeffaabbccdd").
Proof.
  rewrite (normalize_addr_padding (py " 	")
             (py "00112233445566778899AABBCCDDEEFFaabbccdd") (py "
 ") eq_refl eq_refl).
  reflexivity.
Defined.

(** ** Reporting a failed transfer *)

Lemma starts_with_spec needle : forall s,
  starts_with needle s = true <-> exists post, s = needle ++ post.
Proof.
  induction needle as [|a needle IH]; intros s; simpl.
  - split; [intros _; now exists s | reflexivity].
  - destruct s as [|b s].
    + split; [discriminate | intros [post H]; discriminate].
    + rewrite andb_true_iff, N.eqb_eq, IH. split.
      * intros [-> [post ->]]. now exists post.
      * intros [post [= -> ->]]. split; [reflexivity | now exists post].
Qed.

(** [contains] is the substring test. *)
Lemma contains_spec needle : forall s,
  contains needle s = true <-> occurs needle s.
Proof.
  unfold occurs. induction s as [|c s IH]; simpl.
  - rewrite orb_false_r, starts_with_spec. split.
    + intros [post H]. now exists [], post.
    + intros (pre & post & H). symmetry in H.
      apply app_eq_nil in H as [-> H]. apply app_eq_nil in H as [-> ->].
      now exists [].
  - rewrite orb_true_iff, starts_with_spec, IH. split.
    + intros [[post H] | (pre & post & H)].
      * now exists [], post.
      * exists (c :: pre), post. simpl. now rewrite H.
    + intros (pre & post & H). destruct pre as [|c' pre]; simpl in H.
      * left. now exists post.
      * right. injection H as _ H. now exists pre, post.
Qed.

Lemma contains_false needle s : contains needle s = false <-> ~ occurs needle s.
Proof.
  rewrite <- contains_spec. destruct (contains needle s); split; easy.
Qed.

(** X2: how the [except] branch of [claim] sorts the message of the
    exception.  The answer is "unknown recipient" exactly when the message
    contains [unknown recipient address] or [(404)]; it is "insufficient
    credits" exactly when it contains neither of these and contains
    [insufficient credits] or [(400)]; in every other case the message
    itself is shown. *)
Theorem classify_spec (msg : pystr) :
  let unknown := occurs (py "unknown recipient address") msg \/ occurs (py "(404)") msg in
  let exhausted := occurs (py "insufficient credits") msg \/ occurs (py "(400)") msg in
  (classify msg = UnknownRecipient <-> unknown) /\
  (classify msg = FaucetExhausted <-> ~ unknown /\ exhausted) /\
  (classify msg = Generic msg <-> ~ unknown /\ ~ exhausted) /\
  (forall m, classify msg = Generic m -> m = msg).
Proof.
  intros unknown exhausted. subst unknown exhausted.
  rewrite <- !contains_spec. unfold classify.
  destruct (contains (py "unknown recipient address") msg);
    destruct (contains (py "(404)") msg);
    destruct (contains (py "insufficient credits") msg);
    destruct (contains (py "(400)") msg); simpl;
    (split; [|split; [|split]];
     [ try (split; [discriminate|]); try tauto; intuition discriminate
     | try (split; [discriminate|]); try tauto; intuition discriminate
     | try (split; [discriminate|]); try tauto; intuition discriminate
     | intros m H; try discriminate; now injection H as <- ]).
Qed.

Lemma classify_spec_witness :
  classify (py "Cannot connect to host 127.0.0.1:8000") =
    Generic (py "Cannot connect to host 127.0.0.1:8000").
Proof.
  pose proof (classify_spec (py "Cannot connect to host 127.0.0.1:8000")) as H.
  cbv zeta in H. destruct H as (_ & _ & Hgen & _). apply Hgen.
  rewrite <- !contains_spec. split; intros [H | H]; discriminate H.
Defined.

Lemma transfer_message_404 txt :
  classify (py "/transfer failed (" ++ py (str_int 404) ++ py "): " ++ txt)
  = UnknownRecipient.
Proof.
  unfold classify.
  assert (H : contains (py "(404)")
                (py "/transfer failed (" ++ py (str_int 404) ++ py "): " ++ txt) = true)
    by reflexivity.
  now rewrite H, orb_true_r.
Qed.

Lemma transfer_message_400 txt :
  classify (py "/transfer failed (" ++ py (str_int 400) ++ py "): " ++ txt)
  = if contains (py "unknown recipient address") txt || contains (py "(404)") txt
    then UnknownRecipient else FaucetExhausted.
Proof.
  unfold classify.
  assert (H1 : contains (py "unknown recipient address")
                 (py "/transfer failed (" ++ py (str_int 400) ++ py "): " ++ txt)
               = contains (py "unknown recipient address") txt) by reflexivity.
  assert (H2 : contains (py "(404)")
                 (py "/transfer failed (" ++ py (str_int 400) ++ py "): " ++ txt)
               = contains (py "(404)") txt) by reflexivity.
  assert (H3 : contains (py "(400)")
                 (py "/transfer failed (" ++ py (str_int 400) ++ py "): " ++ txt) = true)
    by reflexivity.
  now rewrite H1, H2, H3, orb_true_r.
Qed.

(** X3: what the user is told by the status of the reply.  Once a claim
    has reached the transfer, a reply with status 404 is always reported as
    an unknown recipient; a reply with status 400 is reported as
    insufficient credits, unless its text contains [unknown recipient
    address] or [(404)], which make it an unknown recipient.  In both cases
    one request was sent and the ledger is unchanged, whatever the body. *)
Theorem transfer_status_reports (cfg : config) (bot : bot_state) (fs : store)
    (i : interaction) (t : Z) (a txt : pystr) (parsed : pystr + json) :
  claim_check cfg bot fs i t = inr a ->
  claim cfg bot fs i t (HttpReply 404 txt parsed) =
    {| out_store := fs; out_result := ClaimFailed UnknownRecipient;
       out_transfers := [claim_request cfg a] |} /\
  claim cfg bot fs i t (HttpReply 400 txt parsed) =
    {| out_store := fs;
       out_result :=
         ClaimFailed
           (if contains (py "unknown recipient address") txt || contains (py "(404)") txt
            then UnknownRecipient else FaucetExhausted);
       out_transfers := [claim_request cfg a] |}.
Proof.
  intros Hcheck. rewrite !(claim_proceeds _ _ _ _ _ _ _ Hcheck).
  unfold claim_finish, api_transfer.
  change (404 =? 200) with false. change (400 =? 200) with false.
  cbn [fst snd]. now rewrite transfer_message_404, transfer_message_400.
Qed.

Lemma transfer_status_reports_witness :
  out_result (claim Sample.cfg Sample.bot
                (Sample.store_with (Sample.rec_of Sample.addr_b 10 0))
                Sample.alice 5000
                (HttpReply 400 (py "insufficient credits") (inl [])))
  = ClaimFailed FaucetExhausted.
Proof.
  pose proof (transfer_status_reports Sample.cfg Sample.bot
                (Sample.store_with (Sample.rec_of Sample.addr_b 10 0))
                Sample.alice 5000 Sample.addr_b
                (py "insufficient credits") (inl []) eq_refl)
    as [_ H400].
  rewrite H400. reflexivity.
Defined.

(** ** A reply that is no JSON object *)

(** X4: when the transfer answers with status 200 and a body that is
    JSON but no object, the claim has passed the point of no return: the
    cooldown is committed with the time of the cooldown test, and the
    command then raises instead of replying. *)
Theorem non_object_reply_commits (cfg : config) (bot : bot_state) (fs : store)
    (i : interaction) (t : Z) (a : pystr) (r : http_outcome) (resp : json) :
  claim_check cfg bot fs i t = inr a ->
  api_transfer r = inr resp ->
  (forall items, resp <> JObj items) ->
  out_result (claim cfg bot fs i t r) = ClaimRaised /\
  out_store (claim cfg bot fs i t r) = claim_commit fs i a t /\
  exists rec', get_user (load_data (out_store (claim cfg bot fs i t r))) (user_id i)
               = Some rec' /\
               address rec' = Some a /\ last_claim_at rec' = Some t.
Proof.
  intros Hcheck Hr Hresp. rewrite (claim_proceeds _ _ _ _ _ _ _ Hcheck).
  cbn [out_result out_store]. rewrite (claim_finish_returned _ _ _ _ _ _ _ Hr).
  cbn [fst snd]. split; [|split; [reflexivity|]].
  - destruct resp; try reflexivity. exfalso. exact (Hresp items eq_refl).
  - rewrite claim_commit_rec. eexists. repeat split.
Qed.

Lemma non_object_reply_commits_witness :
  out_result (claim Sample.cfg Sample.bot
                (Sample.store_with (Sample.rec_of Sample.addr_b 10 0))
                Sample.alice 5000 (HttpReply 200 (py "[]") (inr (JArr []))))
  = ClaimRaised.
Proof.
  assert (Hno : forall items, JArr [] <> JObj items) by discriminate.
  exact (proj1 (non_object_reply_commits Sample.cfg Sample.bot
                  (Sample.store_with (Sample.rec_of Sample.addr_b 10 0))
                  Sample.alice 5000 Sample.addr_b
                  (HttpReply 200 (py "[]") (inr (JArr []))) (JArr [])
                  eq_refl eq_refl Hno)).
Defined.

(** ** The sender address *)

Lemma lower_app s1 s2 : lower (s1 ++ s2) = lower s1 ++ lower s2.
Proof. unfold lower. apply map_app. Qed.

Lemma addr_ok_lower h : is_hex40 h = true -> addr_ok (lower h) = true.
Proof.
  intros H. unfold addr_ok.
  now rewrite (lower_hex40 h H), (lower_hex h (is_hex40_hex h H)).
Qed.

Lemma addr_ok_length a : addr_ok a = true -> length a = 40%nat.
Proof.
  unfold addr_ok, is_hex40. intros H.
  apply andb_true_iff in H as [H _]. apply andb_true_iff in H as [H _].
  now apply Nat.eqb_eq in H.
Qed.

Lemma normalize_addr_ok raw a : normalize_addr raw = Some a -> addr_ok a = true.
Proof.
  intros H. apply normalize_addr_Some in H as (-> & Hx & _).
  now apply addr_ok_lower.
Qed.

(** X5: the sender address that [setup_hook] resolves is never an
    arbitrary string: it is known only if the secret is configured, and it
    is 40 lowercase hex characters, alone or followed by one newline. *)
Theorem setup_hook_address_shape (cfg : config) (me : http_outcome) (op : pystr) :
  sender_address (setup_hook cfg me) = Some op ->
  nonempty (FAUCET_SENDER_SECRET cfg) = true /\
  exists h, addr_ok h = true /\ (op = h \/ op = h ++ [0x0A%N]).
Proof.
  intros H. split; [exact (proj1 (setup_hook_known _ _ _ H))|].
  unfold setup_hook in H.
  destruct (nonempty (FAUCET_SENDER_SECRET cfg)); [|discriminate].
  destruct (api_get_me me) as [e | [| | | | |items]]; try discriminate.
  destruct (dict_get (py "account_id") items) as [[| | |addr| |]|]; try discriminate.
  destruct (ADDR_RE_match addr) eqn:E; [|discriminate].
  simpl in H. injection H as <-.
  apply ADDR_RE_match_iff in E as (h & Hh & [-> | ->]).
  - exists (lower h). split; [now apply addr_ok_lower | now left].
  - exists (lower h). split; [now apply addr_ok_lower|]. right.
    now rewrite lower_app.
Qed.

Lemma setup_hook_address_shape_witness :
  exists h, addr_ok h = true /\
            (Sample.addr_a = h \/ Sample.addr_a = h ++ [0x0A%N]).
Proof.
  exact (proj2 (setup_hook_address_shape Sample.cfg Sample.me_reply
                  Sample.addr_a eq_refl)).
Defined.

(** X6: when [/me] gives the account id with a newline at its end, the
    regular expression accepts it and the sender address is kept with the
    newline.  No normalized address equals it, so the self-address guard
    never fires: registering the sender's own 40 characters succeeds. *)
Theorem newline_disables_guard (cfg : config) (me : http_outcome)
    (items : list (pystr * json)) (h : pystr) :
  nonempty (FAUCET_SENDER_SECRET cfg) = true ->
  api_get_me me = inr (JObj items) ->
  dict_get (py "account_id") items = Some (JStr (h ++ [0x0A%N])) ->
  is_hex40 h = true ->
  sender_address (setup_hook cfg me) = Some (lower h ++ [0x0A%N]) /\
  (forall a, addr_ok a = true -> is_sender (setup_hook cfg me) a = false) /\
  (forall fs i raw t,
     channel_allowed cfg i = true -> normalize_addr raw = Some (lower h) ->
     snd (register_address cfg (setup_hook cfg me) fs i raw t) = Registered (lower h)).
Proof.
  intros Hsec Hme Hid Hh.
  assert (Hbot : setup_hook cfg me = {| sender_address := Some (lower h ++ [0x0A%N]) |}).
  { unfold setup_hook. rewrite Hsec, Hme, Hid.
    assert (E : ADDR_RE_match (h ++ [0x0A%N]) = true)
      by (apply ADDR_RE_match_iff; exists h; auto).
    now rewrite E, lower_app. }
  assert (Hguard : forall a, addr_ok a = true -> is_sender (setup_hook cfg me) a = false).
  { intros a Ha. rewrite Hbot. unfold is_sender. simpl.
    apply andb_false_iff. right. apply bool_decide_eq_false. intros ->.
    apply addr_ok_length in Ha. rewrite length_app in Ha.
    unfold lower in Ha. rewrite length_map in Ha.
    unfold is_hex40 in Hh. apply andb_true_iff in Hh as [Hlen _].
    apply Nat.eqb_eq in Hlen. simpl in Ha. lia. }
  split; [now rewrite Hbot|]. split; [exact Hguard|].
  intros fs i raw t Hch Hraw. unfold register_address.
  now rewrite Hch, Hraw, (Hguard _ (addr_ok_lower h Hh)).
Qed.

Lemma newline_disables_guard_witness :
  snd (register_address Sample.cfg
         (setup_hook Sample.cfg
            (HttpReply 200 []
               (inr (JObj [(py "account_id", JStr (Sample.addr_a ++ [0x0A%N]))]))))
         None Sample.alice Sample.addr_a 50)
  = Registered Sample.addr_a.
Proof.
  pose proof (newline_disables_guard Sample.cfg
                (HttpReply 200 []
                   (inr (JObj [(py "account_id", JStr (Sample.addr_a ++ [0x0A%N]))])))
                [(py "account_id", JStr (Sample.addr_a ++ [0x0A%N]))] Sample.addr_a
                eq_refl eq_refl eq_refl eq_refl) as (_ & _ & Hreg).
  exact (Hreg None Sample.alice Sample.addr_a 50 eq_refl eq_refl).
Defined.

(** ** One claim after another *)

Lemma whoami_registered cfg bot fs i t rec a :
  channel_allowed cfg i = true ->
  get_user (load_data fs) (user_id i) = Some rec ->
  address rec = Some a ->
  nonempty a = true ->
  whoami cfg bot fs i t =
    WhoAmI a (whoami_cooldown cfg rec t)
      (match sender_address bot with
       | Some s => if nonempty s then Some s else None
       | None => None
       end).
Proof.
  intros Hch Hrec Haddr Hne. unfold whoami. now rewrite Hch, Hrec, Haddr, Hne.
Qed.

(** X7: the rate limit, for claims that do not overlap.  After a claim
    whose transfer returned, committed at time [t1]: a claim of the same
    user at a time before [t1 + COOLDOWN_SECONDS] is refused with the
    remaining time, sends nothing and changes nothing, and [whoami] shows
    the same remaining time; from [t1 + COOLDOWN_SECONDS] on the user may
    claim again.  The exception is [t1 = 0]: a commit at time 0 reads as
    "never claimed" and refuses nothing. *)
Theorem second_claim_in_window (cfg : config) (bot : bot_state) (fs : store)
    (i : interaction) (t1 t2 : Z) (a : pystr) (r : http_outcome) (resp : json) :
  claim_check cfg bot fs i t1 = inr a ->
  api_transfer r = inr resp ->
  let fs1 := out_store (claim cfg bot fs i t1 r) in
  (t1 <> 0 -> t2 < t1 + COOLDOWN_SECONDS cfg ->
     (forall r2, claim cfg bot fs1 i t2 r2 =
        {| out_store := fs1;
           out_result := CooldownActive (t1 + COOLDOWN_SECONDS cfg - t2);
           out_transfers := [] |}) /\
     exists info, whoami cfg bot fs1 i t2 =
        WhoAmI a (Remaining (t1 + COOLDOWN_SECONDS cfg - t2)) info) /\
  (t1 + COOLDOWN_SECONDS cfg <= t2 -> claim_check cfg bot fs1 i t2 = inr a) /\
  (t1 = 0 -> claim_check cfg bot fs1 i t2 = inr a).
Proof.
  intros Hcheck Hr fs1.
  assert (Hfs1 : fs1 = claim_commit fs i a t1).
  { subst fs1. rewrite (claim_proceeds _ _ _ _ _ _ _ Hcheck). cbn [out_store].
    now rewrite (claim_finish_returned _ _ _ _ _ _ _ Hr). }
  pose proof (claim_check_proceeds_inv _ _ _ _ _ _ Hcheck)
    as (Hch & Hsec & Hne & Hs & _).
  pose proof (claim_commit_rec fs i a t1) as Hrec. rewrite <- Hfs1 in Hrec.
  set (rec1 := set_last_claim_at t1
                 (set_address a (default empty_rec (get_user (load_data fs) (user_id i)))))
    in *.
  assert (Hlast : last_claim_of rec1 = t1) by reflexivity.
  pose proof (fun t => claim_check_registered cfg bot fs1 i t rec1 a
                         Hch Hsec Hrec eq_refl Hne Hs) as Hnext.
  split; [|split].
  - intros Ht1 Ht2. split.
    + intros r2. apply claim_early. rewrite Hnext.
      assert (Hc : claim_cooldown cfg rec1 t2 = Some (t1 + COOLDOWN_SECONDS cfg - t2)).
      { apply claim_cooldown_Some. rewrite Hlast. auto. }
      now rewrite Hc.
    + eexists. rewrite (whoami_registered cfg bot fs1 i t2 rec1 a Hch Hrec eq_refl Hne).
      unfold whoami_cooldown. rewrite Hlast.
      assert (E0 : (t1 =? 0) = false) by now apply Z.eqb_neq.
      assert (E1 : (t1 + COOLDOWN_SECONDS cfg <=? t2) = false) by now apply Z.leb_gt.
      rewrite E0, E1. reflexivity.
  - intros Ht2. rewrite Hnext.
    assert (Hc : claim_cooldown cfg rec1 t2 = None).
    { apply claim_cooldown_None. rewrite Hlast. now right. }
    now rewrite Hc.
  - intros Ht1. rewrite Hnext.
    assert (Hc : claim_cooldown cfg rec1 t2 = None).
    { apply claim_cooldown_None. rewrite Hlast. now left. }
    now rewrite Hc.
Qed.

Lemma second_claim_in_window_witness :
  out_result
    (claim Sample.cfg Sample.bot
       (out_store (claim Sample.cfg Sample.bot
                     (Sample.store_with (Sample.rec_of Sample.addr_b 10 0))
                     Sample.alice 5000 Sample.transfer_ok))
       Sample.alice 6000 Sample.transfer_ok)
  = CooldownActive 85400.
Proof.
  pose proof (second_claim_in_window Sample.cfg Sample.bot
                (Sample.store_with (Sample.rec_of Sample.addr_b 10 0))
                Sample.alice 5000 6000 Sample.addr_b Sample.transfer_ok _
                eq_refl eq_refl) as H.
  cbv zeta in H. destruct H as (Hin & _).
  assert (H0 : 5000 <> 0) by discriminate.
  assert (H1 : 6000 < 5000 + COOLDOWN_SECONDS Sample.cfg) by reflexivity.
  destruct (Hin H0 H1) as [Hclaim _]. rewrite Hclaim. reflexivity.
Defined.

(** ** Who counts as registered *)

(** X8: [whoami] and [claim] agree on who is registered.  In an allowed
    channel and with the secret configured, each answers "not registered"
    exactly when the user has no record, or a record without an address, or
    with an empty one; in particular both do while the data file does not
    exist yet. *)
Theorem not_registered_agree (cfg : config) (bot : bot_state) (fs : store)
    (i : interaction) (t : Z) :
  channel_allowed cfg i = true ->
  nonempty (FAUCET_SENDER_SECRET cfg) = true ->
  (whoami cfg bot fs i t = WhoNotRegistered <-> registered fs (user_id i) = false) /\
  (claim_check cfg bot fs i t = inl NotRegistered <-> registered fs (user_id i) = false) /\
  registered None (user_id i) = false.
Proof.
  intros Hch Hsec. unfold whoami, claim_check, registered. rewrite Hch, Hsec. simpl.
  split; [|split; [|reflexivity]].
  - destruct (get_user (load_data fs) (user_id i)) as [rec|]; [|easy].
    destruct (address rec) as [a|]; [|easy].
    destruct (nonempty a); simpl; easy.
  - destruct (get_user (load_data fs) (user_id i)) as [rec|]; [|easy].
    destruct (address rec) as [a|]; [|easy].
    destruct (nonempty a); simpl; [|easy].
    destruct (is_sender bot a); [easy|].
    destruct (claim_cooldown cfg rec t); easy.
Qed.

Lemma not_registered_agree_witness :
  whoami Sample.cfg Sample.bot None Sample.alice 5000 = WhoNotRegistered /\
  claim_check Sample.cfg Sample.bot None Sample.alice 5000 = inl NotRegistered.
Proof.
  pose proof (not_registered_agree Sample.cfg Sample.bot None Sample.alice 5000
                eq_refl eq_refl) as (Hwho & Hclaim & Hfresh).
  split; [now apply Hwho | now apply Hclaim].
Defined.

(** ** From registration to claim *)

(** X9: a registration makes the user registered, and what is paid is
    what was registered.  After a successful registration of a user who has
    never claimed, a claim at any time passes all tests and sends exactly
    one request: to the normalized address, with the configured secret and
    amount. *)
Theorem register_then_claim (cfg : config) (bot : bot_state) (fs : store)
    (i : interaction) (raw a : pystr) (t0 : Z) :
  channel_allowed cfg i = true ->
  nonempty (FAUCET_SENDER_SECRET cfg) = true ->
  normalize_addr raw = Some a ->
  is_sender bot a = false ->
  let fs1 := fst (register_address cfg bot fs i raw t0) in
  registered fs1 (user_id i) = true /\
  (last_claim_of (default empty_rec (get_user (load_data fs) (user_id i))) = 0 ->
   forall t r,
     out_transfers (claim cfg bot fs1 i t r) =
       [{| tc_secret := FAUCET_SENDER_SECRET cfg; tc_to_address := a;
           tc_amount := FAUCET_AMOUNT cfg |}]).
Proof.
  intros Hch Hsec Hraw Hs fs1. subst fs1.
  rewrite (register_address_stored cfg bot fs i raw a t0 Hch Hraw Hs). cbn [fst].
  pose proof (normalize_addr_Some _ _ Hraw) as (_ & _ & Ha).
  apply is_hex40_nonempty in Ha.
  set (rec1 := register_rec (get_user (load_data fs) (user_id i)) a t0).
  assert (Hrec : get_user (load_data (save_data (set_user (load_data fs) (user_id i) rec1)))
                   (user_id i) = Some rec1)
    by (rewrite load_save; apply get_user_set_user).
  assert (Hfields := register_rec_fields (get_user (load_data fs) (user_id i)) a t0).
  fold rec1 in Hfields.
  assert (Haddr : address rec1 = Some a) by now rewrite Hfields.
  split.
  - unfold registered. now rewrite Hrec, Haddr.
  - intros Hnever t r.
    assert (Hc : claim_cooldown cfg rec1 t = None).
    { apply claim_cooldown_None. left. rewrite Hfields. exact Hnever. }
    assert (Hcheck := claim_check_registered cfg bot _ i t rec1 a
                        Hch Hsec Hrec Haddr Ha Hs).
    rewrite Hc in Hcheck. now rewrite (claim_proceeds _ _ _ _ _ _ _ Hcheck).
Qed.

Lemma register_then_claim_witness :
  out_transfers
    (claim Sample.cfg Sample.bot
       (fst (register_address Sample.cfg Sample.bot None Sample.alice
               (py " BBBBBBBBBBBBBBBBBBBBBBBBBBBBBBBBBBBBBBBB ") 100))
       Sample.alice 200 Sample.transfer_ok)
  = [{| tc_secret := py "secret"; tc_to_address := Sample.addr_b; tc_amount := 5 |}].
Proof.
  pose proof (register_then_claim Sample.cfg Sample.bot None Sample.alice
                (py " BBBBBBBBBBBBBBBBBBBBBBBBBBBBBBBBBBBBBBBB ") Sample.addr_b 100
                eq_refl eq_refl eq_refl eq_refl) as H.
  cbv zeta in H. destruct H as [_ H].
  exact (H eq_refl 200 Sample.transfer_ok).
Defined.

(** ** The channel gate *)

(** X10: outside the allowed channel no command does anything: each of
    the three answers that the channel is not allowed, the ledger is neither
    created nor changed and no transfer is sent.  That is the case for
    every channel when [ALLOWED_CHANNEL_ID] is set to something [int]
    rejects, and for an interaction without channel when it is set. *)
Theorem channel_gate (cfg : config) (bot : bot_state) (fs : store)
    (i : interaction) (raw : pystr) (t : Z) (r : http_outcome) :
  (channel_allowed cfg i = false ->
     register_address cfg bot fs i raw t = (fs, RegChannelNotAllowed) /\
     claim cfg bot fs i t r =
       {| out_store := fs; out_result := ClaimChannelNotAllowed; out_transfers := [] |} /\
     whoami cfg bot fs i t = WhoChannelNotAllowed) /\
  (ALLOWED_CHANNEL_ID cfg = ChannelUnparsable -> channel_allowed cfg i = false) /\
  (forall n, ALLOWED_CHANNEL_ID cfg = ChannelId n ->
     (channel_allowed cfg i = true <-> channel_id i = Some n)) /\
  (ALLOWED_CHANNEL_ID cfg = ChannelUnset -> channel_allowed cfg i = true).
Proof.
  split; [|split; [|split]].
  - intros H. unfold register_address, claim, claim_check, whoami. now rewrite H.
  - intros H. unfold channel_allowed. now rewrite H.
  - intros n H. unfold channel_allowed. rewrite H. apply bool_decide_eq_true.
  - intros H. unfold channel_allowed. now rewrite H.
Qed.

Lemma channel_gate_witness :
  claim {| DISCORD_TOKEN := py "token"; FAUCET_SENDER_SECRET := py "secret";
           FAUCET_AMOUNT := 5; COOLDOWN_SECONDS := 86400;
           DATA_FILE := py "discord_pow_faucet.json"; GUILD_ID := GuildUnset;
           ALLOWED_CHANNEL_ID := ChannelId 8 |}
    Sample.bot (Sample.store_with (Sample.rec_of Sample.addr_b 10 0))
    Sample.alice 5000 Sample.transfer_ok
  = {| out_store := Sample.store_with (Sample.rec_of Sample.addr_b 10 0);
       out_result := ClaimChannelNotAllowed; out_transfers := [] |}.
Proof.
  pose proof (channel_gate
                {| DISCORD_TOKEN := py "token"; FAUCET_SENDER_SECRET := py "secret";
                   FAUCET_AMOUNT := 5; COOLDOWN_SECONDS := 86400;
                   DATA_FILE := py "discord_pow_faucet.json"; GUILD_ID := GuildUnset;
                   ALLOWED_CHANNEL_ID := ChannelId 8 |}
                Sample.bot (Sample.store_with (Sample.rec_of Sample.addr_b 10 0))
                Sample.alice [] 5000 Sample.transfer_ok) as [H _].
  exact (proj1 (proj2 (H eq_refl))).
Defined.

(** ** The remaining time shown *)

(** X11: the time a refused claim reports is positive, and the hours and
    minutes shown for it never overstate it and understate it by less than
    a minute, the minutes staying below 60; so in the last minute of the
    window the message shows 0h 0m. *)
Theorem remaining_time_shown (cfg : config) (rec : user_rec) (t rem : Z) :
  claim_cooldown cfg rec t = Some rem ->
  let '(h, m) := hours_minutes rem in
  0 < rem /\ 0 <= h /\ 0 <= m < 60 /\
  h * 3600 + m * 60 <= rem < h * 3600 + m * 60 + 60.
Proof.
  intros H. apply claim_cooldown_Some in H as (_ & Hlt & ->).
  unfold hours_minutes.
  set (rem := last_claim_of rec + COOLDOWN_SECONDS cfg - t).
  assert (Hrem : 0 < rem) by (subst rem; lia).
  pose proof (Z.div_mod rem 3600 ltac:(lia)) as Hd1.
  pose proof (Z.mod_pos_bound rem 3600 ltac:(lia)) as Hb1.
  pose proof (Z.div_mod (rem mod 3600) 60 ltac:(lia)) as Hd2.
  pose proof (Z.mod_pos_bound (rem mod 3600) 60 ltac:(lia)) as Hb2.
  assert (0 <= rem / 3600) by (apply Z.div_pos; lia).
  assert (0 <= rem mod 3600 / 60) by (apply Z.div_pos; lia).
  assert (rem mod 3600 / 60 < 60) by (apply Z.div_lt_upper_bound; lia).
  repeat split; lia.
Qed.

Lemma remaining_time_shown_witness :
  0 < 59 /\ 0 <= 0 /\ 0 <= 0 < 60 /\ 0 * 3600 + 0 * 60 <= 59 < 0 * 3600 + 0 * 60 + 60.
Proof.
  exact (remaining_time_shown Sample.cfg (Sample.rec_of Sample.addr_b 10 1000)
           (1000 + 86400 - 59) 59 eq_refl).
Defined.

(** ** Looking up and storing a record *)

(** X12: [set_user] and [get_user] behave as a map keyed by the user id,
    also on a document without the ["users"] key: a record that was stored
    is the one found, a later store under the same id replaces it, and the
    records of all other ids stay as they were, because distinct ids have
    distinct keys. *)
Theorem get_set_user (d : data) (u v : Z) (rec rec' : user_rec) :
  get_user (set_user d u rec) u = Some rec /\
  set_user (set_user d u rec) u rec' = set_user d u rec' /\
  get_user {| users := None |} v = None /\
  (u <> v -> get_user (set_user d u rec) v = get_user d v) /\
  (u <> v -> set_user (set_user d u rec) v rec' = set_user (set_user d v rec') u rec).
Proof.
  split; [apply get_user_set_user|]. split; [|split; [|split]].
  - unfold set_user. simpl. now rewrite insert_insert_eq.
  - reflexivity.
  - apply get_user_set_user_ne.
  - intros Huv. unfold set_user. simpl. f_equal. f_equal.
    apply insert_insert_ne. intros E. apply user_key_inj in E. congruence.
Qed.

Lemma get_set_user_witness :
  get_user (set_user {| users := None |} 1001 (Sample.rec_of Sample.addr_b 1 0)) 1002
  = None.
Proof.
  pose proof (get_set_user {| users := None |} 1001 1002
                (Sample.rec_of Sample.addr_b 1 0) empty_rec) as (_ & _ & _ & Hne & _).
  assert (H : 1001 <> 1002) by discriminate.
  exact (Hne H).
Defined.

(** ** What every interleaving keeps *)

Section RunInvariants.
Import Interleave.

Variable cfg : config.
Variable bot : bot_state.

(** An invariant of single steps is an invariant of runs. *)
Lemma run_invariant (P : world -> Prop) :
  (forall w e, P w -> P (step cfg bot w e)) ->
  forall es w, P w -> P (run cfg bot w es).
Proof.
  intros Hstep es. unfold run.
  induction es as [|e es IH]; intros w Hw; simpl; [exact Hw|].
  apply IH, Hstep, Hw.
Qed.

(** What a step does to the file and to the list of claims: nothing, a
    registration, the start of a claim, or the end of one in flight. *)
Lemma step_cases (w : world) (e : event) :
  (w_store (step cfg bot w e) = w_store w /\
   (w_claims (step cfg bot w e) = w_claims w \/
    (exists res, w_claims (step cfg bot w e) = w_claims w ++ [Replied res]) \/
    (exists k res, w_claims (step cfg bot w e) = <[k := Replied res]> (w_claims w)))) \/
  (exists i raw a t,
     normalize_addr raw = Some a /\
     w_store (step cfg bot w e) =
       save_data (set_user (load_data (w_store w)) (user_id i)
                    (register_rec (get_user (load_data (w_store w)) (user_id i)) a t)) /\
     w_claims (step cfg bot w e) = w_claims w) \/
  (exists i a t,
     claim_check cfg bot (w_store w) i t = inr a /\
     w_store (step cfg bot w e) = w_store w /\
     w_claims (step cfg bot w e) = w_claims w ++ [InFlight i a t]) \/
  (exists k i a t res,
     w_claims w !! k = Some (InFlight i a t) /\
     w_store (step cfg bot w e) = claim_commit (w_store w) i a t /\
     w_claims (step cfg bot w e) = <[k := Replied res]> (w_claims w)).
Proof.
  destruct e as [i raw t | i t | k r]; simpl.
  - unfold register_address.
    destruct (channel_allowed cfg i); simpl; [|left; auto].
    destruct (normalize_addr raw) as [a|] eqn:Hraw; [|left; auto].
    destruct (is_sender bot a); simpl; [left; auto|].
    right. left. exists i, raw, a, t. auto.
  - destruct (claim_check cfg bot (w_store w) i t) as [early | a] eqn:E; simpl.
    + left. split; [reflexivity|]. right. left. now exists early.
    + right. right. left. now exists i, a, t.
  - destruct (w_claims w !! k) as [[i a t | res]|] eqn:E; [|left; auto|left; auto].
    unfold claim_finish. destruct (api_transfer r) as [msg | resp]; simpl.
    + left. split; [reflexivity|]. right. right. now exists k, (ClaimFailed (classify msg)).
    + right. right. right. exists k, i, a, t, (claim_reply cfg a resp). auto.
Qed.

Lemma Forall_inflight_replied ok (l : list task) k res :
  Forall (inflight_ok ok) l -> Forall (inflight_ok ok) (<[k := Replied res]> l).
Proof. intros H. apply Forall_insert; [exact H | exact I]. Qed.

(** The claims in flight go to addresses accepted by [ok], provided the
    addresses that pass the first phase of [claim] are. *)
Lemma step_inflight ok (w : world) (e : event) :
  (forall i t a, claim_check cfg bot (w_store w) i t = inr a -> ok a = true) ->
  Forall (inflight_ok ok) (w_claims w) ->
  Forall (inflight_ok ok) (w_claims (step cfg bot w e)).
Proof.
  intros Hcheck Hcl.
  destruct (step_cases w e)
    as [[_ [-> | [[res ->] | (k & res & ->)]]]
       | [(i & raw & a & t & _ & _ & ->)
         | [(i & a & t & Hc & _ & ->) | (k & i & a & t & res & _ & _ & ->)]]].
  - exact Hcl.
  - apply Forall_app. split; [exact Hcl|]. now repeat constructor.
  - now apply Forall_inflight_replied.
  - exact Hcl.
  - apply Forall_app. split; [exact Hcl|]. repeat constructor.
    simpl. now apply (Hcheck i t).
  - now apply Forall_inflight_replied.
Qed.

Lemma store_ok_register fs i a t :
  addr_ok a = true -> store_ok fs ->
  store_ok (save_data (set_user (load_data fs) (user_id i)
                         (register_rec (get_user (load_data fs) (user_id i)) a t))).
Proof.
  intros Ha Hfs u rec a' Hget Haddr. rewrite load_save in Hget.
  destruct (decide (user_id i = u)) as [<- | Hu].
  - rewrite get_user_set_user in Hget. injection Hget as <-.
    rewrite register_rec_fields in Haddr. simpl in Haddr. now injection Haddr as <-.
  - rewrite (get_user_set_user_ne _ _ _ _ Hu) in Hget. now apply (Hfs u rec).
Qed.

Lemma store_ok_commit fs i a t :
  addr_ok a = true -> store_ok fs -> store_ok (claim_commit fs i a t).
Proof.
  intros Ha Hfs u rec a' Hget Haddr.
  destruct (decide (u = user_id i)) as [-> | Hu].
  - rewrite claim_commit_rec in Hget. injection Hget as <-.
    simpl in Haddr. now injection Haddr as <-.
  - rewrite (claim_commit_other _ _ _ _ _ Hu) in Hget. now apply (Hfs u rec).
Qed.

Lemma step_addresses (w : world) (e : event) :
  store_ok (w_store w) /\ Forall (inflight_ok addr_ok) (w_claims w) ->
  store_ok (w_store (step cfg bot w e)) /\
  Forall (inflight_ok addr_ok) (w_claims (step cfg bot w e)).
Proof.
  intros [Hst Hcl]. split.
  - destruct (step_cases w e)
      as [[-> _]
         | [(i & raw & a & t & Hraw & -> & _)
           | [(i & a & t & _ & -> & _) | (k & i & a & t & res & Hk & -> & _)]]].
    + exact Hst.
    + apply store_ok_register; [|exact Hst]. now apply (normalize_addr_ok raw).
    + exact Hst.
    + apply store_ok_commit; [|exact Hst].
      now apply (Forall_lookup_1 _ _ _ _ Hcl Hk).
  - apply step_inflight; [|exact Hcl]. intros i t a Hc.
    apply claim_check_proceeds_inv in Hc as (_ & _ & _ & _ & rec & Hrec & Haddr & _).
    now apply (Hst (user_id i) rec).
Qed.

(** X13: the ledger only ever holds normalized addresses.  If every
    address stored under a user id is 40 lowercase hex characters (as in a
    missing or empty file), and so is the address of every claim in flight,
    then this is so after any sequence of registrations, claim starts and
    claim ends, in any order and with any outcome of the transfers. *)
Theorem run_keeps_addresses_normalized (w : world) (es : list event) :
  store_ok (w_store w) ->
  Forall (inflight_ok addr_ok) (w_claims w) ->
  store_ok (w_store (run cfg bot w es)) /\
  Forall (inflight_ok addr_ok) (w_claims (run cfg bot w es)).
Proof.
  intros Hst Hcl.
  apply (run_invariant
           (fun w => store_ok (w_store w) /\ Forall (inflight_ok addr_ok) (w_claims w))).
  - intros w' e. apply step_addresses.
  - now split.
Qed.

Lemma registered_register fs i a t u :
  nonempty a = true -> registered fs u = true ->
  registered (save_data (set_user (load_data fs) (user_id i)
                           (register_rec (get_user (load_data fs) (user_id i)) a t))) u
  = true.
Proof.
  intros Ha Hu. unfold registered. rewrite load_save.
  destruct (decide (user_id i = u)) as [<- | Hne].
  - now rewrite get_user_set_user, register_rec_fields.
  - now rewrite (get_user_set_user_ne _ _ _ _ Hne).
Qed.

Lemma registered_commit fs i a t u :
  nonempty a = true -> registered fs u = true ->
  registered (claim_commit fs i a t) u = true.
Proof.
  intros Ha Hu. unfold registered.
  destruct (decide (u = user_id i)) as [-> | Hne].
  - now rewrite claim_commit_rec.
  - now rewrite (claim_commit_other _ _ _ _ _ Hne).
Qed.

Lemma step_registered (u : Z) (w : world) (e : event) :
  registered (w_store w) u = true /\ Forall (inflight_ok nonempty) (w_claims w) ->
  registered (w_store (step cfg bot w e)) u = true /\
  Forall (inflight_ok nonempty) (w_claims (step cfg bot w e)).
Proof.
  intros [Hu Hcl]. split.
  - destruct (step_cases w e)
      as [[-> _]
         | [(i & raw & a & t & Hraw & -> & _)
           | [(i & a & t & _ & -> & _) | (k & i & a & t & res & Hk & -> & _)]]].
    + exact Hu.
    + apply registered_register; [|exact Hu].
      apply normalize_addr_Some in Hraw as (_ & _ & Ha).
      now apply is_hex40_nonempty.
    + exact Hu.
    + apply registered_commit; [|exact Hu].
      now apply (Forall_lookup_1 _ _ _ _ Hcl Hk).
  - apply step_inflight; [|exact Hcl]. intros i t a Hc.
    now apply claim_check_proceeds_inv in Hc as (_ & _ & Hne & _).
Qed.

(** X14: nobody is ever unregistered.  A user who has a non-empty
    address in the ledger still has one after any sequence of
    registrations and claims by anyone, overlapping or not: no command
    removes a record or empties an address. *)
Theorem run_keeps_registered (fs : store) (es : list event) (u : Z) :
  registered fs u = true ->
  registered (w_store (run cfg bot (init fs) es)) u = true.
Proof.
  intros Hu.
  apply (run_invariant
           (fun w => registered (w_store w) u = true /\
                     Forall (inflight_ok nonempty) (w_claims w))).
  - intros w e. apply step_registered.
  - split; [exact Hu | constructor].
Qed.

Lemma step_requests (w : world) (e : event) :
  Forall (request_ok cfg bot) (w_transfers w) ->
  Forall (request_ok cfg bot) (w_transfers (step cfg bot w e)).
Proof.
  intros Hw. destruct e as [i raw t | i t | k r]; simpl.
  - now destruct (register_address cfg bot (w_store w) i raw t).
  - destruct (claim_check cfg bot (w_store w) i t) as [early | a] eqn:E; simpl;
      [exact Hw|].
    apply claim_check_proceeds_inv in E as (_ & Hsec & Hne & Hs & _).
    apply Forall_app. split; [exact Hw|]. repeat constructor; assumption.
  - destruct (w_claims w !! k) as [[i a t | res]|]; try exact Hw.
    now destruct (claim_finish cfg (w_store w) i a t r).
Qed.

(** X15: no transfer is ever requested to the sender's own address.  In
    any sequence of registrations and claims, overlapping or not, every
    request sent to [POST /transfer] goes to a non-empty address that is
    not the resolved sender address, and carries the configured, non-empty
    secret and the configured amount. *)
Theorem run_requests_ok (fs : store) (es : list event) :
  Forall (request_ok cfg bot) (w_transfers (run cfg bot (init fs) es)).
Proof.
  apply (run_invariant (fun w => Forall (request_ok cfg bot) (w_transfers w))).
  - intros w e. apply step_requests.
  - constructor.
Qed.

End RunInvariants.

Lemma store_ok_fresh : store_ok None.
Proof.
  intros u rec a H. unfold get_user in H. simpl in H.
  rewrite lookup_empty in H. discriminate.
Qed.

Lemma run_keeps_addresses_normalized_witness :
  store_ok
    (Interleave.w_store
       (Interleave.run Sample.cfg Sample.bot (Interleave.init None)
          [Interleave.EvRegister Sample.alice
             (py " BBBBBBBBBBBBBBBBBBBBBBBBBBBBBBBBBBBBBBBB") 100;
           Interleave.EvClaimCheck Sample.alice 200;
           Interleave.EvRegister Sample.alice Sample.addr_c 201;
           Interleave.EvClaimFinish 0 Sample.transfer_ok])).
Proof.
  apply (run_keeps_addresses_normalized Sample.cfg Sample.bot (Interleave.init None)).
  - exact store_ok_fresh.
  - constructor.
Defined.

Lemma run_keeps_registered_witness :
  registered
    (Interleave.w_store
       (Interleave.run Sample.cfg Sample.bot
          (Interleave.init (Sample.store_with (Sample.rec_of Sample.addr_b 10 0)))
          [Interleave.EvClaimCheck Sample.alice 200;
           Interleave.EvRegister Sample.alice (py "not an address") 201;
           Interleave.EvClaimFinish 0 Sample.transfer_404]))
    1001 = true.
Proof.
  apply (run_keeps_registered Sample.cfg Sample.bot). reflexivity.
Defined.

(** ** A complete and an interrupted save *)

Section SaveDataMore.
Import SaveData.

Variable cfg : config.

Lemma save_data_done_eq chunks d :
  save_data_done cfg chunks d =
    {| files := <[DATA_FILE cfg := snapshot chunks]> (delete (tmp_path cfg) (files d));
       handle := None |}.
Proof. unfold save_data_done. now apply save_data_complete. Qed.

(** Before its last call, [save_data] has touched no file but the
    temporary one. *)
Lemma save_data_upto_others chunks k d p :
  p <> tmp_path cfg ->
  (k < length (save_data_ops cfg chunks))%nat ->
  files (save_data_upto cfg chunks k d) !! p = files d !! p.
Proof.
  intros Hp. rewrite save_data_ops_length. intros Hk.
  unfold save_data_upto, save_data_ops.
  destruct k as [|k]; [reflexivity|]. simpl.
  replace (map Write chunks ++ [Close; Replace (tmp_path cfg) (DATA_FILE cfg)])
    with ((map Write chunks ++ [Close]) ++ [Replace (tmp_path cfg) (DATA_FILE cfg)])
    by now rewrite <- app_assoc.
  rewrite take_app_le by (rewrite length_app, length_map; simpl; lia).
  rewrite run_ops_quiet.
  - simpl. apply lookup_insert_ne. congruence.
  - apply forallb_forall. intros op Hop.
    apply list_elem_of_In, elem_of_take in Hop as (j & Hop & _).
    apply list_elem_of_lookup_2, elem_of_app in Hop as [Hop | Hop].
    + apply list_elem_of_fmap in Hop as (c & -> & _). reflexivity.
    + apply list_elem_of_singleton in Hop as ->. reflexivity.
  - unfold handle_off. simpl. congruence.
Qed.

Lemma delete_tmp_upto chunks k d :
  (k < length (save_data_ops cfg chunks))%nat ->
  delete (tmp_path cfg) (files (save_data_upto cfg chunks k d))
  = delete (tmp_path cfg) (files d).
Proof.
  intros Hk. apply map_eq. intros p.
  destruct (decide (p = tmp_path cfg)) as [-> | Hp].
  - now rewrite !lookup_delete_eq.
  - rewrite !lookup_delete_ne by congruence. now apply save_data_upto_others.
Qed.

(** X16: what a complete [save_data] leaves on the disk.  [DATA_FILE]
    holds the whole snapshot, the temporary file is gone, no file object is
    open and every other file is as before, whatever the temporary file
    held when the save began.  Hence the last save wins: saving twice
    leaves what the second save alone leaves. *)
Theorem save_data_result (chunks chunks' : list pystr) (d : disk) :
  files (save_data_done cfg chunks d) !! DATA_FILE cfg = Some (snapshot chunks) /\
  files (save_data_done cfg chunks d) !! tmp_path cfg = None /\
  handle (save_data_done cfg chunks d) = None /\
  (forall p, p <> DATA_FILE cfg -> p <> tmp_path cfg ->
     files (save_data_done cfg chunks d) !! p = files d !! p) /\
  (forall text, save_data_done cfg chunks
                  {| files := <[tmp_path cfg := text]> (files d); handle := handle d |}
                = save_data_done cfg chunks d) /\
  save_data_done cfg chunks' (save_data_done cfg chunks d) = save_data_done cfg chunks' d.
Proof.
  rewrite !save_data_done_eq. simpl.
  split; [apply lookup_insert_eq|]. split; [|split; [reflexivity|split; [|split]]].
  - rewrite lookup_insert_ne by (pose proof (tmp_path_ne cfg); congruence).
    apply lookup_delete_eq.
  - intros p Hd Ht. rewrite lookup_insert_ne by congruence.
    apply lookup_delete_ne. congruence.
  - intros text. rewrite !save_data_done_eq. simpl.
    now rewrite delete_insert_eq.
  - f_equal. apply map_eq. intros p.
    destruct (decide (p = DATA_FILE cfg)) as [-> | Hd].
    + now rewrite !lookup_insert_eq.
    + rewrite !lookup_insert_ne by congruence.
      destruct (decide (p = tmp_path cfg)) as [-> | Ht].
      * now rewrite !lookup_delete_eq.
      * rewrite !lookup_delete_ne by congruence.
        rewrite lookup_insert_ne by congruence.
        now rewrite lookup_delete_ne by congruence.
Qed.

(** X17: [load_data] sees a save all or nothing, and an interrupted save
    leaves no trace once the next one completes.  After a save interrupted
    before its last call, [load_data] returns what it returned before the
    save began (the empty ledger if there was no file); after a complete
    save it returns what [json.load] makes of the whole snapshot; and a
    complete save that follows an interrupted one leaves the disk as if the
    interrupted one had never started. *)
Theorem load_after_save (parse : pystr -> option data) (chunks chunks' : list pystr)
    (k : nat) (d : disk) :
  ((k < length (save_data_ops cfg chunks))%nat ->
     load_file cfg parse (save_data_upto cfg chunks k d) = load_file cfg parse d /\
     files (save_data_done cfg chunks' (save_data_upto cfg chunks k d))
     = files (save_data_done cfg chunks' d)) /\
  ((length (save_data_ops cfg chunks) <= k)%nat ->
     load_file cfg parse (save_data_upto cfg chunks k d) = parse (snapshot chunks)) /\
  (files d !! DATA_FILE cfg = None ->
     load_file cfg parse d = Some {| users := Some ∅ |}).
Proof.
  split; [|split].
  - intros Hk. split.
    + unfold load_file.
      rewrite (save_data_upto_others chunks k d (DATA_FILE cfg)); [reflexivity| |exact Hk].
      pose proof (tmp_path_ne cfg). congruence.
    + rewrite !save_data_done_eq. simpl.
      now rewrite (delete_tmp_upto chunks k d Hk).
  - intros Hk. unfold load_file. rewrite (save_data_complete cfg chunks k d Hk).
    simpl. now rewrite lookup_insert_eq.
  - intros Hd. unfold load_file. now rewrite Hd.
Qed.

End SaveDataMore.

Lemma save_data_result_witness :
  SaveData.files
    (SaveData.save_data_done Sample.cfg [py "{"; py "}"]
       {| SaveData.files := {[ py "notes.txt" := py "keep" ]};
          SaveData.handle := None |})
    !! py "notes.txt" = Some (py "keep").
Proof.
  pose proof (save_data_result Sample.cfg [py "{"; py "}"] []
                {| SaveData.files := {[ py "notes.txt" := py "keep" ]};
                   SaveData.handle := None |}) as (_ & _ & _ & Hother & _).
  assert (H1 : py "notes.txt" <> DATA_FILE Sample.cfg) by discriminate.
  assert (H2 : py "notes.txt" <> SaveData.tmp_path Sample.cfg) by discriminate.
  exact (eq_trans (Hother _ H1 H2) (lookup_singleton_eq _ _)).
Defined.

Lemma load_after_save_witness :
  SaveData.load_file Sample.cfg (fun _ => None)
    (SaveData.save_data_upto Sample.cfg [py "{"; py "}"] 4
       {| SaveData.files := ∅; SaveData.handle := None |})
  = Some {| users := Some ∅ |}.
Proof.
  pose proof (load_after_save Sample.cfg (fun _ => None) [py "{"; py "}"] [] 4
                {| SaveData.files := ∅; SaveData.handle := None |}) as (Hearly & _ & _).
  assert (Hk : (4 < length (SaveData.save_data_ops Sample.cfg [py "{"; py "}"]))%nat)
    by (simpl; lia).
  exact (proj1 (Hearly Hk)).
Defined.

(** ** The cooldown over time *)

(** X18: the cooldown counts down second by second and then stays open.
    While a claim is refused with [rem] seconds remaining, a claim [k]
    seconds later, [k < rem], is refused with [rem - k] remaining; exactly
    [rem] seconds later, and at every later time, the cooldown test passes,
    as it does at every time after a time at which it passed. *)
Theorem cooldown_counts_down (cfg : config) (rec : user_rec) (t t' : Z) :
  t <= t' ->
  (claim_cooldown cfg rec t = None -> claim_cooldown cfg rec t' = None) /\
  (forall rem, claim_cooldown cfg rec t = Some rem ->
     (t' < t + rem -> claim_cooldown cfg rec t' = Some (rem - (t' - t))) /\
     (t + rem <= t' -> claim_cooldown cfg rec t' = None) /\
     claim_cooldown cfg rec (t + rem) = None).
Proof.
  intros Hle. split.
  - rewrite !claim_cooldown_None. lia.
  - intros rem H. apply claim_cooldown_Some in H as (H0 & Hlt & ->).
    split; [|split].
    + intros Ht'. apply claim_cooldown_Some. lia.
    + intros Ht'. apply claim_cooldown_None. lia.
    + apply claim_cooldown_None. lia.
Qed.

Lemma cooldown_counts_down_witness :
  claim_cooldown Sample.cfg (Sample.rec_of Sample.addr_b 10 1000) 2500 = Some 84900 /\
  claim_cooldown Sample.cfg (Sample.rec_of Sample.addr_b 10 1000) 87400 = None.
Proof.
  assert (Hle : 2000 <= 2500) by discriminate.
  destruct (cooldown_counts_down Sample.cfg (Sample.rec_of Sample.addr_b 10 1000)
              2000 2500 Hle) as [_ H].
  destruct (H 85400 eq_refl) as (Hin & _ & Hend).
  split; [exact (Hin eq_refl) | exact Hend].
Defined.
